(** * shlurp: GitHub issue scraper and summarizer

    A shallow embedding of [utils.py], [github_scraper.py] and
    [llm_summarizer.py], and the properties their documentation states.

    Python values are modelled as follows.
    - [str] is a list of characters (code points below 256); [len] is the
      list length, slicing is [firstn]/[skipn].
    - [int] is [Z].
    - A raised exception is the [Raise] branch of [result]; a [try/except]
      is a match on it.
    - The world outside the process (HTTP server, clock, LLM backend) is an
      explicit argument; what the process does to it is a logged trace. *)

From Stdlib Require Import Ascii String DecimalString.
From Stdlib Require Import ZArith Lia Bool Arith List.
Import ListNotations.
Local Open Scope Z_scope.

(* ================================================================== *)
(** * Python values *)

Definition str := list ascii.

(** A string literal of the source. *)
Definition lit (s : string) : str := list_ascii_of_string s.

Definition NL : ascii := "010"%char.
Definition DQUOTE : ascii := "034"%char.

Definition len {A : Type} (l : list A) : Z := Z.of_nat (length l).

(** Truthiness of a sequence: [if xs:]. *)
Definition truthy {A : Type} (l : list A) : bool :=
  match l with [] => false | _ => true end.

Inductive exn : Type :=
| ValueError
| KeyError
| HTTPError
| ConnectionError
| RetryError
| LLMError.

(** [requests.exceptions.RequestException] and its subclasses. *)
Definition is_RequestException (e : exn) : bool :=
  match e with
  | HTTPError | ConnectionError => true
  | _ => false
  end.

Inductive result (A : Type) : Type :=
| Ok (a : A)
| Raise (e : exn).
Arguments Ok {A} a.
Arguments Raise {A} e.

(** [str(n)] for an [int]. *)
Definition str_of_Z (n : Z) : str := lit (NilZero.string_of_int (Z.to_int n)).

(** ** [str] methods *)

Definition ascii_in (lo hi : nat) (c : ascii) : bool :=
  (Nat.leb lo (nat_of_ascii c) && Nat.leb (nat_of_ascii c) hi)%bool.

(** [str.isspace] on one character: TAB..CR, FS..US, space, NEL, NBSP. *)
Definition is_space (c : ascii) : bool :=
  (ascii_in 9 13 c || ascii_in 28 32 c || ascii_in 133 133 c
   || ascii_in 160 160 c)%bool.

(** The class [\d]. *)
Definition is_digit (c : ascii) : bool := ascii_in 48 57 c.

(** The class [\w]: alphanumerics and the underscore. *)
Definition is_word (c : ascii) : bool :=
  (ascii_in 48 57 c || ascii_in 65 90 c || ascii_in 97 122 c
   || ascii_in 95 95 c || ascii_in 170 170 c || ascii_in 178 179 c
   || ascii_in 181 181 c || ascii_in 185 186 c || ascii_in 188 190 c
   || ascii_in 192 214 c || ascii_in 216 246 c || ascii_in 248 255 c)%bool.

Fixpoint lstrip (s : str) : str :=
  match s with
  | [] => []
  | c :: r => if is_space c then lstrip r else s
  end.

Fixpoint rstrip (s : str) : str :=
  match s with
  | [] => []
  | c :: r =>
      match rstrip r with
      | [] => if is_space c then [] else [c]
      | r' => c :: r'
      end
  end.

Definition strip (s : str) : str := rstrip (lstrip s).

(** [sep.join(parts)]. *)
Fixpoint join (sep : str) (parts : list str) : str :=
  match parts with
  | [] => []
  | [p] => p
  | p :: rest => p ++ sep ++ join sep rest
  end.

(** [s.startswith(p)], returning the rest of [s] after [p]. *)
Fixpoint strip_prefix (p s : str) : option str :=
  match p, s with
  | [], _ => Some s
  | _ :: _, [] => None
  | a :: p', b :: s' => if Ascii.eqb a b then strip_prefix p' s' else None
  end.

Definition startswith (p s : str) : bool :=
  match strip_prefix p s with Some _ => true | None => false end.

(** [p in s] for strings. *)
Fixpoint contains (p s : str) : bool :=
  match s with
  | [] => startswith p []
  | _ :: r => (startswith p s || contains p r)%bool
  end.

Fixpoint take_while (f : ascii -> bool) (s : str) : str :=
  match s with
  | [] => []
  | c :: r => if f c then c :: take_while f r else []
  end.

Fixpoint drop_while (f : ascii -> bool) (s : str) : str :=
  match s with
  | [] => []
  | c :: r => if f c then drop_while f r else s
  end.

(** ** Slices and ranges *)

(** A slice bound as Python normalises it: negative counts from the end,
    then clamped to [0, len]. *)
Definition slice_index {A : Type} (l : list A) (i : Z) : nat :=
  Z.to_nat (Z.min (len l) (Z.max 0 (if i <? 0 then len l + i else i))).

(** [l[lo:hi]]. *)
Definition slice {A : Type} (l : list A) (lo hi : Z) : list A :=
  let a := slice_index l lo in
  let b := slice_index l hi in
  firstn (b - a)%nat (skipn a l).

(** [l[:hi]]. *)
Definition slice_to {A : Type} (l : list A) (hi : Z) : list A :=
  firstn (slice_index l hi) l.

(** [range(i, stop, step)] for a positive step, unrolled [fuel] times. *)
Fixpoint range_up (fuel : nat) (i stop step : Z) : list Z :=
  match fuel with
  | O => []
  | S f => if i <? stop then i :: range_up f (i + step) stop step else []
  end.

(** [range(start, stop, step)]: [ValueError] on a zero step; a negative
    step from [start <= stop] is empty (the only case the code reaches
    is [start = 0 <= stop]). *)
Definition py_range (start stop step : Z) : result (list Z) :=
  if step =? 0 then Raise ValueError
  else if 0 <? step then Ok (range_up (Z.to_nat (stop - start)) start stop step)
  else if start <=? stop then Ok []
  else Raise ValueError.

(* ================================================================== *)
(** * Regular expressions of the source

    [re.sub] scans left to right; at each position the pattern is tried,
    and on a match the replacement is emitted and the scan resumes after
    the matched text. A [matcher] gives, for the text at a position, the
    replacement and the number of characters matched (never zero for the
    patterns below). *)

Definition matcher := str -> option (str * nat).

Fixpoint re_sub_from (m : matcher) (skip : nat) (s : str) : str :=
  match s with
  | [] => []
  | c :: r =>
      match skip with
      | S k => re_sub_from m k r
      | O =>
          match m s with
          | Some (repl, n) => repl ++ re_sub_from m (Nat.pred n) r
          | None => c :: re_sub_from m 0 r
          end
      end
  end.

Definition re_sub (m : matcher) (s : str) : str := re_sub_from m 0 s.

(** [str.replace(old, new)] for a non-empty [old]: the same scan. *)
Definition replace (old new : str) (s : str) : str :=
  re_sub (fun t => if startswith old t then Some (new, length old) else None) s.

(** The pattern [\n{3,}], replaced by two newlines. *)
Definition newlines3 : matcher := fun s =>
  let run := take_while (Ascii.eqb NL) s in
  if Nat.leb 3 (length run) then Some ([NL; NL], length run) else None.

(** The pattern of the second [re.sub]: three backquotes, a group of
    zero or more [\w], a newline; replaced by three backquotes, the group
    and a newline. *)
Definition fence_opener : matcher := fun s =>
  match strip_prefix (lit "```") s with
  | Some r =>
      let g := take_while is_word r in
      match skipn (length g) r with
      | c :: _ =>
          if Ascii.eqb c NL
          then Some (lit "```" ++ g ++ [NL], (3 + length g + 1)%nat)
          else None
      | [] => None
      end
  | None => None
  end.

(** The lookahead [(?=## Issue #\d+:)]. *)
Definition issue_header_ahead (s : str) : bool :=
  match strip_prefix (lit "## Issue #") s with
  | Some r =>
      let d := take_while is_digit r in
      (negb (Nat.eqb (length d) 0) && startswith (lit ":") (skipn (length d) r))%bool
  | None => false
  end.

(** [re.split] on a zero-width pattern [(?=...)]: the text is cut before
    every position where the lookahead holds; a match at position 0 gives
    an empty first piece. [re_split_tail] cuts at positions 1, 2, ... *)
Fixpoint re_split_tail (ahead : str -> bool) (s : str) : list str :=
  match s with
  | [] => [[]]
  | c :: r =>
      match re_split_tail ahead r with
      | [] => [[c]]
      | p :: ps => if ahead r then [c] :: p :: ps else (c :: p) :: ps
      end
  end.

Definition re_split (ahead : str -> bool) (s : str) : list str :=
  if ahead s then [] :: re_split_tail ahead s else re_split_tail ahead s.

(* ================================================================== *)
(** * utils.py *)

(** [split_into_chunks(items, chunk_size)]. *)
Definition split_into_chunks {A : Type} (items : list A) (chunk_size : Z)
  : result (list (list A)) :=
  match py_range 0 (len items) chunk_size with
  | Raise e => Raise e
  | Ok idx => Ok (map (fun i => slice items i (i + chunk_size)) idx)
  end.

(** [estimate_tokens(text)]. *)
Definition estimate_tokens (text : str) : Z := len text / 4.

(** [clean_markdown_content(content)]. *)
Definition clean_markdown_content (content : str) : str :=
  if negb (truthy content) then []
  else
    let content := re_sub newlines3 content in
    let content := re_sub fence_opener content in
    strip content.

(** [get_repo_filename(owner, repo, suffix)]. *)
Definition get_repo_filename (owner repo suffix : str) : str :=
  let base_name := owner ++ lit "_" ++ repo in
  if truthy suffix then base_name ++ lit "_" ++ suffix else base_name.

(** A [datetime] as [strftime] reads it. *)
Record datetime : Type := mk_datetime {
  dt_year : Z; dt_month : Z; dt_day : Z; dt_hour : Z; dt_minute : Z
}.

(** [%02d]-style zero padding to [width] digits. *)
Definition zero_pad (width : nat) (n : Z) : str :=
  let d := str_of_Z n in
  repeat "0"%char (width - length d) ++ d.

(** [dt.strftime('%Y-%m-%d %H:%M')]: month, day, hour and minute have two
    digits; the year is printed as the number it is, without leading
    zeros (year 99 gives [99-01-01 00:00]). *)
Definition strftime_Ymd_HM (dt : datetime) : str :=
  str_of_Z (dt_year dt) ++ lit "-" ++ zero_pad 2 (dt_month dt) ++ lit "-"
  ++ zero_pad 2 (dt_day dt) ++ lit " " ++ zero_pad 2 (dt_hour dt) ++ lit ":"
  ++ zero_pad 2 (dt_minute dt).

Section FormatDatetime.
(** [datetime.fromisoformat]: the parsed value, or the [ValueError] it
    raises. *)
Variable fromisoformat : str -> result datetime.

(** [format_datetime(dt_str)]; the bare [except:] catches everything. *)
Definition format_datetime (dt_str : str) : result str :=
  match fromisoformat (replace (lit "Z") (lit "+00:00") dt_str) with
  | Ok dt => Ok (strftime_Ymd_HM dt)
  | Raise _ => Ok dt_str
  end.
End FormatDatetime.

(* ================================================================== *)
(** * llm_summarizer.py *)

(** The loop variables of [_chunk_content]. *)
Record pack_state : Type := mk_pack {
  chunks : list str;
  current_chunk : list str;
  current_size : Z
}.

Definition pack_init : pack_state :=
  {| chunks := []; current_chunk := []; current_size := 0 |}.

(** One iteration of [for issue in issues]. *)
Definition pack_step (max_tokens : Z) (st : pack_state) (issue : str) : pack_state :=
  let issue_tokens := estimate_tokens issue in
  if ((max_tokens <? current_size st + issue_tokens) && truthy (current_chunk st))%bool
  then {| chunks := chunks st ++ [join [NL] (current_chunk st)];
          current_chunk := [issue];
          current_size := issue_tokens |}
  else {| chunks := chunks st;
          current_chunk := current_chunk st ++ [issue];
          current_size := current_size st + issue_tokens |}.

(** [re.split(r'(?=## Issue #\d+:)', content)] without the pieces that are
    empty after [strip]. *)
Definition issue_blocks (content : str) : list str :=
  filter (fun i => truthy (strip i)) (re_split issue_header_ahead content).

(** The pieces the filter drops. *)
Definition blank_blocks (content : str) : list str :=
  filter (fun i => negb (truthy (strip i))) (re_split issue_header_ahead content).

(** [_chunk_content(content, max_tokens)]. *)
Definition _chunk_content (content : str) (max_tokens : Z) : list str :=
  let estimated_tokens := estimate_tokens content in
  if estimated_tokens <=? max_tokens then [content]
  else
    let issues := issue_blocks content in
    let st := fold_left (pack_step max_tokens) issues pack_init in
    if truthy (current_chunk st)
    then chunks st ++ [join [NL] (current_chunk st)]
    else chunks st.

Definition DEFAULT_MAX_TOKENS : Z := 100000.

(** [_create_system_prompt()]. *)
Definition _create_system_prompt : str := lit
"You are an expert at analyzing GitHub issues and providing actionable summaries.
        
Your task is to analyze the provided GitHub issues and create a comprehensive summary that includes:

1. **Overview**: Brief summary of the repository's issue landscape
2. **Priority Analysis**: Identify high-priority issues based on:
   - Number of comments/engagement
   - Labels (critical, bug, security, etc.)
   - Age of issues
   - User impact

4. **Common Themes**: Identify recurring problems or requests
5. **Recommendations**: Suggest actions for maintainers

Format your response in clear markdown with appropriate headers and bullet points.
Be concise but comprehensive. Focus on actionable insights.".

(** [_create_user_prompt(issues_content, repo_info)]. *)
Definition _create_user_prompt (issues_content repo_info : str) : str :=
  let prompt := lit "Please analyze these GitHub issues" ++ repo_info ++ lit ":" ++ [NL; NL] in
  let prompt := prompt ++ repeat "="%char 50 ++ [NL] in
  let prompt := prompt ++ issues_content in
  let prompt := prompt ++ [NL] ++ repeat "="%char 50 ++ [NL; NL] in
  prompt ++ lit "Provide a comprehensive summary following the guidelines in your instructions.".

(** The repo_info argument of the i-th chunk call. *)
Definition part_info (i total : nat) (repo_info : str) : str :=
  lit " (Part " ++ str_of_Z (Z.of_nat i) ++ lit "/" ++ str_of_Z (Z.of_nat total)
  ++ repo_info ++ lit ")".

(** The separator of the partial summaries. *)
Definition SUMMARY_SEP : str := [NL; NL] ++ lit "---" ++ [NL; NL].

(** The prompt of the reduction call. *)
Definition final_prompt (repo_info combined_summaries : str) : str :=
  lit "Please create a final, consolidated summary from these partial summaries of GitHub issues"
  ++ repo_info ++ lit "." ++ [NL] ++ repeat " "%char 12 ++ [NL]
  ++ lit "Combine the insights from all parts into a single, coherent summary following the same structure as before."
  ++ [NL]
  ++ lit "Eliminate any redundancy and provide the most important insights."
  ++ [NL; NL] ++ lit "Partial Summaries:" ++ [NL] ++ combined_summaries.

(** One request to the chat API: (system prompt, user prompt). *)
Definition llm_call : Type := (str * str)%type.

Section Summarizer.
(** The backend: its reply to a call, given the calls made before. *)
Variable llm : list llm_call -> llm_call -> result str.

(** A computation that makes LLM calls; the state is the list of calls
    made so far. *)
Definition LLM (A : Type) : Type := list llm_call -> result A * list llm_call.

(** [_call_llm(system_prompt, user_prompt)]: an API error is printed and
    re-raised. *)
Definition _call_llm (system_prompt user_prompt : str) : LLM str :=
  fun log => (llm log (system_prompt, user_prompt),
              log ++ [(system_prompt, user_prompt)]).

(** [for i, chunk in enumerate(chunks, 1)] of [summarize_content]. *)
Fixpoint summarize_parts (total : nat) (repo_info : str) (i : nat)
         (todo : list str) (chunk_summaries : list str) : LLM (list str) :=
  match todo with
  | [] => fun log => (Ok chunk_summaries, log)
  | chunk :: rest => fun log =>
      let user_prompt := _create_user_prompt chunk (part_info i total repo_info) in
      match _call_llm _create_system_prompt user_prompt log with
      | (Ok summary, log') =>
          summarize_parts total repo_info (S i) rest (chunk_summaries ++ [summary]) log'
      | (Raise e, log') => (Raise e, log')
      end
  end.

(** [summarize_content(content, repo_info)]. *)
Definition summarize_content (content repo_info : str) : LLM str :=
  let system_prompt := _create_system_prompt in
  let chunks := _chunk_content content DEFAULT_MAX_TOKENS in
  match chunks with
  | [chunk] =>
      _call_llm system_prompt (_create_user_prompt chunk repo_info)
  | _ => fun log =>
      match summarize_parts (length chunks) repo_info 1 chunks [] log with
      | (Ok chunk_summaries, log') =>
          let combined_summaries := join SUMMARY_SEP chunk_summaries in
          _call_llm system_prompt (final_prompt repo_info combined_summaries) log'
      | (Raise e, log') => (Raise e, log')
      end
  end.
End Summarizer.

(* ================================================================== *)
(** * github_scraper.py *)

(** A JSON field read with [dict.get]: absent, [null], or a string. *)
Inductive field : Type :=
| Missing
| Null
| Text (s : str).

(** An element of the list the issues endpoint returns. *)
Record api_object : Type := mk_issue {
  number : Z;
  title : str;
  user_login : str;
  created_at : str;
  updated_at : field;
  labels : list str;        (* the [name] of each label *)
  assignees : list str;     (* the [login] of each assignee *)
  body : field;
  comments : Z;
  pull_request : bool       (* the key [pull_request] is present *)
}.

(** An element of the list the comments endpoint returns. *)
Record comment : Type := mk_comment {
  comment_login : str;
  comment_created_at : str;
  comment_body : field
}.

Inductive pyval : Type :=
| VStr (s : str)
| VInt (z : Z).

(** The [params] argument of a request: [None] or a dict. *)
Definition params_t : Type := option (list (str * pyval)).

(** What the process does to the outside world. *)
Inductive event : Type :=
| EGet (url : str) (params : params_t)
| ESleep (seconds : Z).

(** The response object, with the headers the code reads. *)
Record response (J : Type) : Type := mk_response {
  status_code : Z;
  rate_remaining : option Z;    (* X-RateLimit-Remaining *)
  rate_reset : option Z;        (* X-RateLimit-Reset *)
  link : option str;            (* Link *)
  json : J
}.
Arguments status_code {J} r.
Arguments rate_remaining {J} r.
Arguments rate_reset {J} r.
Arguments link {J} r.
Arguments json {J} r.

(** [session.get]: a response, or a connection failure. *)
Inductive http_reply (J : Type) : Type :=
| Reply (r : response J)
| NetError.
Arguments Reply {J} r.
Arguments NetError {J}.

(** The server: its answer to the n-th request of the process. *)
Definition network (J : Type) : Type := nat -> str -> params_t -> http_reply J.

Record world : Type := mk_world {
  served : nat;          (* requests sent so far *)
  clock : Z;             (* int(time.time()) *)
  trace : list event
}.

(** The end of a run: a value, an exception, or not finished within the
    unrolling bound. *)
Inductive run (A : Type) : Type :=
| Returns (a : A)
| Raises (e : exn)
| Unfinished.
Arguments Returns {A} a.
Arguments Raises {A} e.
Arguments Unfinished {A}.

Definition M (A : Type) : Type := world -> run A * world.

(** [time.sleep(seconds)]. *)
Definition sleep (seconds : Z) (w : world) : world :=
  {| served := served w;
     clock := clock w + seconds;
     trace := trace w ++ [ESleep seconds] |}.

(** [session.get(url, params=params)]. *)
Definition session_get {J : Type} (net : network J) (url : str) (params : params_t)
  (w : world) : http_reply J * world :=
  (net (served w) url params,
   {| served := S (served w);
      clock := clock w;
      trace := trace w ++ [EGet url params] |}).

(** [response.raise_for_status()]. *)
Definition raise_for_status {J : Type} (r : response J) : run (response J) :=
  if ((400 <=? status_code r) && (status_code r <? 600))%bool
  then Raises HTTPError else Returns r.

(** [wait_exponential(multiplier=1, min=4, max=10)] of tenacity. *)
Definition wait_exponential (attempt_number : Z) : Z :=
  Z.max 4 (Z.min (1 * 2 ^ (attempt_number - 1)) 10).

(** [@retry(stop=stop_after_attempt(n), wait=wait_exponential(...))]: an
    attempt that raises is repeated after a wait; the last failure is
    reported as [RetryError]. *)
Fixpoint retrying {A : Type} (attempts_left : nat) (attempt_number : Z) (f : M A) : M A :=
  fun w =>
    match attempts_left with
    | O => (Raises RetryError, w)
    | S n =>
        match f w with
        | (Raises e, w') =>
            match n with
            | O => (Raises RetryError, w')
            | S _ => retrying n (attempt_number + 1) f
                       (sleep (wait_exponential attempt_number) w')
            end
        | other => other
        end
    end.

Section Scraper.
Context {J : Type}.
Variable net : network J.

(** The body of [_make_request]; [self_make_request] is the decorated
    method it calls on a rate limit. *)
Definition request_once (self_make_request : str -> params_t -> M (response J))
  (url : str) (params : params_t) : M (response J) :=
  fun w =>
    match session_get net url params w with
    | (NetError, w1) => (Raises ConnectionError, w1)
    | (Reply r, w1) =>
        let otherwise := (raise_for_status r, w1) in
        if status_code r =? 403 then
          match rate_remaining r with
          | Some remaining =>
              if remaining =? 0 then
                match rate_reset r with
                | None => (Raises KeyError, w1)
                | Some reset_time =>
                    let sleep_time := reset_time - clock w1 + 1 in
                    if 0 <? sleep_time
                    then self_make_request url params (sleep sleep_time w1)
                    else otherwise
                end
              else otherwise
          | None => otherwise
          end
        else otherwise
    end.

(** [_make_request(url, params)], the recursion on rate limits unrolled
    [fuel] deep. *)
Fixpoint _make_request (fuel : nat) (url : str) (params : params_t) : M (response J) :=
  match fuel with
  | O => fun w => (Unfinished, w)
  | S f => retrying 3 1 (request_once (_make_request f) url params)
  end.
End Scraper.

Definition base_url : str := lit "https://api.github.com".
Definition per_page : Z := 100.

Definition issues_url (owner repo : str) : str :=
  base_url ++ lit "/repos/" ++ owner ++ lit "/" ++ repo ++ lit "/issues".

Definition issues_params (page : Z) : params_t :=
  Some [(lit "state", VStr (lit "open"));
        (lit "page", VInt page);
        (lit "per_page", VInt per_page);
        (lit "sort", VStr (lit "created"));
        (lit "direction", VStr (lit "desc"))].

Definition REL_NEXT : str := lit "rel=" ++ [DQUOTE] ++ lit "next" ++ [DQUOTE].

Section FetchIssues.
Variable net : network (list api_object).
Variable owner repo : str.
(** [None], or the [int] the caller passed. *)
Variable max_issues : option Z.

(** [if max_issues and len(issues) >= max_issues]. *)
Definition cap_reached (issues : list api_object) : option Z :=
  match max_issues with
  | Some m => if (negb (m =? 0) && (m <=? len issues))%bool then Some m else None
  | None => None
  end.

(** The [while True] loop of [fetch_issues], at most [fuel] pages. *)
Fixpoint fetch_loop (fuel : nat) (rl_fuel : nat) (page : Z) (issues : list api_object)
  : M (list api_object) :=
  fun w =>
    match fuel with
    | O => (Unfinished, w)
    | S f =>
        match _make_request net rl_fuel (issues_url owner repo) (issues_params page) w with
        | (Unfinished, w1) => (Unfinished, w1)
        | (Raises e, w1) =>
            if is_RequestException e then (Returns issues, w1) else (Raises e, w1)
        | (Returns resp, w1) =>
            let page_issues := json resp in
            if negb (truthy page_issues) then (Returns issues, w1)
            else
              let page_issues := filter (fun issue => negb (pull_request issue)) page_issues in
              let issues := issues ++ page_issues in
              match cap_reached issues with
              | Some m => (Returns (slice_to issues m), w1)
              | None =>
                  let more :=
                    match link resp with
                    | Some l => contains REL_NEXT l
                    | None => negb (len page_issues <? per_page)
                    end in
                  if more then fetch_loop f rl_fuel (page + 1) issues w1
                  else (Returns issues, w1)
              end
        end
    end.

(** [fetch_issues(owner, repo, max_issues)]. *)
Definition fetch_issues (fuel rl_fuel : nat) : M (list api_object) :=
  fetch_loop fuel rl_fuel 1 [].
End FetchIssues.

Definition comments_url (owner repo : str) (issue_number : Z) : str :=
  base_url ++ lit "/repos/" ++ owner ++ lit "/" ++ repo ++ lit "/issues/"
  ++ str_of_Z issue_number ++ lit "/comments".

(** [fetch_comments(owner, repo, issue_number)]. *)
Definition fetch_comments (net : network (list comment)) (rl_fuel : nat)
  (owner repo : str) (issue_number : Z) : M (list comment) :=
  fun w =>
    match _make_request net rl_fuel (comments_url owner repo issue_number) None w with
    | (Returns resp, w1) => (Returns (json resp), w1)
    | (Raises e, w1) =>
        if is_RequestException e then (Returns [], w1) else (Raises e, w1)
    | (Unfinished, w1) => (Unfinished, w1)
    end.

Definition NO_DESCRIPTION : str := lit "No description provided.".

(** [d.get(key, default)] handed to [clean_markdown_content]: an absent
    key gives the default; [None] and the empty string are falsy. *)
Definition clean_field (f : field) (default : str) : str :=
  match f with
  | Missing => clean_markdown_content default
  | Null => []
  | Text s => clean_markdown_content s
  end.

(** The description part of an issue's block. *)
Definition description_section (issue : api_object) : list str :=
  [lit "### Description" ++ [NL; NL];
   clean_field (body issue) NO_DESCRIPTION ++ [NL; NL]].

Section Render.
Variable fromisoformat : str -> result datetime.
Variable net : network (list comment).
Variable rl_fuel : nat.
Variable owner repo : str.

(** The value an f-string interpolates for [format_datetime(x)]. *)
Definition shown_datetime (x : str) : str :=
  match format_datetime fromisoformat x with
  | Ok s => s
  | Raise _ => x
  end.

Definition header_section (issue : api_object) : list str :=
  [lit "## Issue #" ++ str_of_Z (number issue) ++ lit ": " ++ title issue ++ [NL; NL];
   lit "**Author:** " ++ user_login issue ++ [NL];
   lit "**Created:** " ++ shown_datetime (created_at issue) ++ [NL]]
  ++ match updated_at issue with
     | Text (c :: u) => [lit "**Updated:** " ++ shown_datetime (c :: u) ++ [NL]]
     | _ => []
     end
  ++ (if truthy (labels issue)
      then [lit "**Labels:** " ++ join (lit ", ") (labels issue) ++ [NL]] else [])
  ++ (if truthy (assignees issue)
      then [lit "**Assignees:** " ++ join (lit ", ") (assignees issue) ++ [NL]] else [])
  ++ [[NL]].

Definition comment_section (c : comment) : list str :=
  [lit "#### Comment by " ++ comment_login c ++ lit " ("
     ++ shown_datetime (comment_created_at c) ++ lit ")" ++ [NL; NL];
   clean_field (comment_body c) [] ++ [NL; NL]].

(** The parts appended for one issue. *)
Definition issue_parts (want_comments : bool) (issue : api_object) : M (list str) :=
  fun w =>
    let head := header_section issue ++ description_section issue in
    let rule := [lit "---" ++ [NL; NL]] in
    if (want_comments && (0 <? comments issue))%bool then
      match fetch_comments net rl_fuel owner repo (number issue) w with
      | (Returns cs, w1) =>
          (Returns (head
                    ++ (if truthy cs
                        then [lit "### Comments" ++ [NL; NL]] ++ flat_map comment_section cs
                        else [])
                    ++ rule), w1)
      | (Raises e, w1) => (Raises e, w1)
      | (Unfinished, w1) => (Unfinished, w1)
      end
    else (Returns (head ++ rule), w).

Fixpoint issues_parts (want_comments : bool) (issues : list api_object)
         (markdown_parts : list str) : M (list str) :=
  fun w =>
    match issues with
    | [] => (Returns markdown_parts, w)
    | issue :: rest =>
        match issue_parts want_comments issue w with
        | (Returns ps, w1) => issues_parts want_comments rest (markdown_parts ++ ps) w1
        | (Raises e, w1) => (Raises e, w1)
        | (Unfinished, w1) => (Unfinished, w1)
        end
    end.

(** [issues_to_markdown(issues, owner, repo, fetch_comments)];
    [generated] is [time.strftime('%Y-%m-%dT%H:%M:%SZ')]. *)
Definition issues_to_markdown (generated : str) (issues : list api_object)
  (want_comments : bool) : M str :=
  fun w =>
    let markdown_parts :=
      [lit "# GitHub Issues for " ++ owner ++ lit "/" ++ repo ++ [NL; NL];
       lit "*Generated on " ++ shown_datetime generated ++ lit "*" ++ [NL; NL];
       lit "**Total Open Issues:** " ++ str_of_Z (len issues) ++ [NL; NL];
       lit "---" ++ [NL; NL]] in
    match issues_parts want_comments issues markdown_parts w with
    | (Returns ps, w1) => (Returns (concat ps), w1)
    | (Raises e, w1) => (Raises e, w1)
    | (Unfinished, w1) => (Unfinished, w1)
    end.
End Render.

(* ================================================================== *)
(** * A well-behaved server

    The environment used where a property needs the fetch to finish: the
    issues endpoint serves a fixed list of pages, with a [Link] header
    naming the next page on every page but the last, and an empty list
    past the end. *)

(** The [page] entry of the params. *)
Fixpoint param_page (kvs : list (str * pyval)) : Z :=
  match kvs with
  | [] => 1
  | (k, VInt p) :: rest =>
      if list_eq_dec ascii_dec k (lit "page") then p else param_page rest
  | _ :: rest => param_page rest
  end.

Definition requested_page (params : params_t) : Z :=
  match params with
  | Some kvs => param_page kvs
  | None => 1
  end.

Definition serve_pages (pages : list (list api_object)) : network (list api_object) :=
  fun _ _ params =>
    let p := requested_page params in
    Reply {| status_code := 200;
             rate_remaining := Some 4999;
             rate_reset := Some 0;
             link := if p <? len pages
                     then Some (lit "<https://api.github.com/next>; " ++ REL_NEXT)
                     else None;
             json := nth (Z.to_nat (p - 1)) pages [] |}.

(** An issue object with the given number, body and pull-request tag. *)
Definition sample_issue (n : Z) (b : field) (pr : bool) : api_object :=
  {| number := n;
     title := lit "Crash on start";
     user_login := lit "octocat";
     created_at := lit "2024-05-01T10:20:30Z";
     updated_at := Null;
     labels := [lit "bug"];
     assignees := [];
     body := b;
     comments := 0;
     pull_request := pr |}.

(* ================================================================== *)
(** * Properties of utils.py *)

(** ** [split_into_chunks] *)

(** The ceiling of [a / b] for a positive [b]. *)
Definition ceil_div (a b : Z) : Z := (a + b - 1) / b.

Lemma ceil_div_spec (a b : Z) :
  0 < b -> b * (ceil_div a b - 1) < a <= b * ceil_div a b.
Proof.
  intros Hb. unfold ceil_div.
  pose proof (Z.div_mod (a + b - 1) b ltac:(lia)) as Hdm.
  pose proof (Z.mod_pos_bound (a + b - 1) b Hb) as Hm.
  nia.
Qed.

Lemma len_nonneg {A : Type} (l : list A) : 0 <= len l.
Proof. unfold len. lia. Qed.

Lemma len_app {A : Type} (l1 l2 : list A) : len (l1 ++ l2) = len l1 + len l2.
Proof. unfold len. rewrite length_app. lia. Qed.

Lemma slice_nonneg {A : Type} (l : list A) (i k : Z) :
  0 <= i -> 0 <= k ->
  slice l i (i + k) = firstn (Z.to_nat k) (skipn (Z.to_nat i) l).
Proof.
  intros Hi Hk. unfold slice, slice_index, len.
  destruct (Z.ltb_spec i 0); [lia|].
  destruct (Z.ltb_spec (i + k) 0); [lia|].
  set (n := length l).
  destruct (Z.le_gt_cases (Z.of_nat n) i) as [Hge|Hlt].
  - rewrite !skipn_all2 by (subst n; lia). now rewrite !firstn_nil.
  - replace (Z.to_nat (Z.min (Z.of_nat n) (Z.max 0 i))) with (Z.to_nat i) by lia.
    destruct (Z.le_gt_cases (Z.of_nat n) (i + k)) as [Hge'|Hlt'].
    + rewrite !firstn_all2; auto; rewrite length_skipn; subst n; lia.
    + f_equal. lia.
Qed.

Lemma len_cons {A : Type} (x : A) (l : list A) : len (x :: l) = 1 + len l.
Proof. unfold len. cbn [length]. lia. Qed.

Lemma len_nil {A : Type} : len (@nil A) = 0.
Proof. reflexivity. Qed.

Lemma ceil_div_nonpos (a k : Z) : 0 < k -> a <= 0 -> ceil_div a k <= 0.
Proof.
  intros Hk Ha. unfold ceil_div.
  apply Z.lt_succ_r. apply Z.div_lt_upper_bound; lia.
Qed.

Lemma ceil_div_step (a k : Z) :
  0 < k -> 0 < a -> ceil_div a k = 1 + Z.max 0 (ceil_div (a - k) k).
Proof.
  intros Hk Ha. unfold ceil_div.
  replace (a + k - 1) with ((a - k + k - 1) + 1 * k) by lia.
  rewrite Z.div_add by lia.
  assert (0 <= (a - k + k - 1) / k); [|lia].
  apply Z.div_pos; lia.
Qed.

Lemma range_up_chunks {A : Type} (items : list A) (k : Z) :
  0 < k ->
  forall (fuel : nat) (i : Z),
    0 <= i ->
    (Z.to_nat (len items - i) <= fuel)%nat ->
    len (range_up fuel i (len items) k) = Z.max 0 (ceil_div (len items - i) k)
    /\ Forall (fun g : list A => len g <= k)
         (map (fun j => slice items j (j + k)) (range_up fuel i (len items) k))
    /\ concat (map (fun j => slice items j (j + k)) (range_up fuel i (len items) k))
       = skipn (Z.to_nat i) items.
Proof.
  intros Hk fuel. induction fuel as [|f IH]; intros i Hi Hfuel.
  - assert (Hge : len items <= i) by lia.
    pose proof (ceil_div_nonpos (len items - i) k Hk ltac:(lia)).
    cbn [range_up map concat]. rewrite len_nil.
    split; [lia|]. split; [constructor|].
    rewrite skipn_all2; auto. unfold len in Hge. lia.
  - cbn [range_up]. destruct (Z.ltb_spec i (len items)) as [Hlt|Hge].
    + cbn [map concat].
      destruct (IH (i + k)) as (IHn & IHall & IHcat); [lia|lia|].
      rewrite slice_nonneg by lia.
      split; [|split].
      * rewrite len_cons, IHn.
        rewrite (ceil_div_step (len items - i) k) by lia.
        replace (len items - i - k) with (len items - (i + k)) by lia. lia.
      * constructor; auto. unfold len. rewrite length_firstn. lia.
      * rewrite IHcat.
        replace (Z.to_nat (i + k)) with (Z.to_nat k + Z.to_nat i)%nat by lia.
        rewrite <- skipn_skipn. apply firstn_skipn.
    + pose proof (ceil_div_nonpos (len items - i) k Hk ltac:(lia)).
      cbn [map concat]. rewrite len_nil.
      split; [lia|]. split; [constructor|].
      rewrite skipn_all2; auto. unfold len in Hge. lia.
Qed.

Lemma len_map {A B : Type} (f : A -> B) (l : list A) : len (map f l) = len l.
Proof. unfold len. now rewrite length_map. Qed.

(** C5. For a positive chunk size [k], [split_into_chunks] returns
    [ceil(N/k)] groups of at most [k] items each, and their in-order
    concatenation is the original list. *)
Theorem split_into_chunks_partition {A : Type} (items : list A) (k : Z) :
  0 < k ->
  exists groups,
    split_into_chunks items k = Ok groups
    /\ len groups = ceil_div (len items) k
    /\ k * (len groups - 1) < len items <= k * len groups
    /\ Forall (fun g => len g <= k) groups
    /\ concat groups = items.
Proof.
  intros Hk. unfold split_into_chunks, py_range.
  destruct (Z.eqb_spec k 0); [lia|].
  destruct (Z.ltb_spec 0 k); [|lia].
  eexists. split; [reflexivity|].
  destruct (range_up_chunks items k Hk (Z.to_nat (len items - 0)) 0)
    as (Hn & Hall & Hcat); [lia|lia|].
  rewrite Z.sub_0_r in *.
  pose proof (ceil_div_spec (len items) k Hk) as Hc.
  pose proof (len_nonneg items) as Hl.
  assert (Hn' : len (map (fun i => slice items i (i + k))
                  (range_up (Z.to_nat (len items)) 0 (len items) k))
                = ceil_div (len items) k).
  { rewrite len_map, Hn. apply Z.max_r. nia. }
  split; [exact Hn'|]. split; [rewrite Hn'; exact Hc|]. split; [exact Hall|].
  exact Hcat.
Qed.

Lemma split_into_chunks_partition_witness :
  exists groups,
    split_into_chunks [1; 2; 3; 4; 5] 2 = Ok groups
    /\ len groups = ceil_div (len [1; 2; 3; 4; 5]) 2
    /\ 2 * (len groups - 1) < len [1; 2; 3; 4; 5] <= 2 * len groups
    /\ Forall (fun g => len g <= 2) groups
    /\ concat groups = [1; 2; 3; 4; 5].
Proof. apply (split_into_chunks_partition [1; 2; 3; 4; 5] 2). lia. Defined.

(** ** The [re.sub] scan *)

Lemma re_sub_from_skip (m : matcher) (k : nat) (s : str) :
  re_sub_from m k s = re_sub m (skipn k s).
Proof.
  revert s. induction k as [|k IH]; intros s.
  - reflexivity.
  - destruct s as [|c r]; [reflexivity|]. cbn [re_sub_from skipn]. apply IH.
Qed.

Lemma re_sub_cons (m : matcher) (c : ascii) (r : str) :
  re_sub m (c :: r) =
  match m (c :: r) with
  | Some (repl, n) => repl ++ re_sub m (skipn (Nat.pred n) r)
  | None => c :: re_sub m r
  end.
Proof.
  unfold re_sub at 1. cbn [re_sub_from].
  destruct (m (c :: r)) as [[repl n]|]; [|reflexivity].
  now rewrite re_sub_from_skip.
Qed.

(** A matcher whose replacement is the matched text itself. *)
Definition echoes (m : matcher) : Prop :=
  forall t repl n, m t = Some (repl, n) -> (0 < n)%nat /\ repl = firstn n t.

Lemma re_sub_echo (m : matcher) :
  echoes m -> forall s, re_sub m s = s.
Proof.
  intros Hm s.
  remember (length s) as n eqn:Hn.
  revert s Hn. induction n as [n IH] using lt_wf_ind. intros s Hn.
  destruct s as [|c r]; [reflexivity|].
  rewrite re_sub_cons.
  destruct (m (c :: r)) as [[repl k]|] eqn:Hmatch.
  - destruct (Hm _ _ _ Hmatch) as [Hk ->].
    destruct k as [|k]; [lia|]. cbn [Nat.pred firstn].
    rewrite (IH (length (skipn k r))) by
      (try reflexivity; rewrite length_skipn; cbn in Hn; lia).
    cbn. f_equal. apply firstn_skipn.
  - f_equal. apply (IH (length r)); [cbn in Hn; lia|reflexivity].
Qed.

Lemma strip_prefix_Some (p s r : str) :
  strip_prefix p s = Some r -> s = p ++ r.
Proof.
  revert s. induction p as [|a p IH]; intros s H.
  - cbn in H. now inversion H.
  - destruct s as [|b s]; [discriminate|]. cbn in H.
    destruct (Ascii.eqb_spec a b); [|discriminate]. subst b.
    cbn. f_equal. now apply IH.
Qed.

Lemma take_while_firstn (f : ascii -> bool) (s : str) :
  firstn (length (take_while f s)) s = take_while f s.
Proof.
  induction s as [|c r IH]; [reflexivity|]. cbn.
  destruct (f c); cbn; [now rewrite IH|reflexivity].
Qed.

Lemma take_while_skipn (f : ascii -> bool) (s : str) :
  s = take_while f s ++ skipn (length (take_while f s)) s.
Proof.
  rewrite <- (take_while_firstn f s) at 1. symmetry. apply firstn_skipn.
Qed.

Lemma fence_opener_echoes : echoes fence_opener.
Proof.
  intros t repl n H. unfold fence_opener in H.
  destruct (strip_prefix (lit "```") t) as [r|] eqn:Hp; [|discriminate].
  apply strip_prefix_Some in Hp.
  destruct (skipn (length (take_while is_word r)) r) as [|c rest] eqn:Hs;
    [discriminate|].
  destruct (Ascii.eqb_spec c NL); [|discriminate]. subst c.
  inversion H; subst repl n; clear H.
  split; [lia|].
  pose proof (take_while_skipn is_word r) as Hr. rewrite Hs in Hr.
  set (g := take_while is_word r) in *.
  rewrite Hp, Hr. cbn [lit list_ascii_of_string app firstn Nat.add].
  do 3 f_equal.
  replace (length g + 1)%nat with (length (g ++ [NL]) + 0)%nat
    by (rewrite length_app; cbn; lia).
  change (g ++ NL :: rest) with (g ++ [NL] ++ rest).
  rewrite app_assoc, firstn_app_2. cbn. now rewrite app_nil_r.
Qed.

(** The second substitution of [clean_markdown_content] rewrites every
    match to itself. *)
Lemma re_sub_fence_opener_id (s : str) : re_sub fence_opener s = s.
Proof. apply re_sub_echo, fence_opener_echoes. Qed.

(** ** Runs of newlines *)

Definition nl_run (s : str) : nat := length (take_while (Ascii.eqb NL) s).

(** [s] has three consecutive newlines somewhere. *)
Definition has_nl3 (s : str) : Prop := exists a b, s = a ++ [NL; NL; NL] ++ b.

Fixpoint nl3_free (s : str) : bool :=
  match s with
  | [] => true
  | _ :: r => (Nat.ltb (nl_run s) 3 && nl3_free r)%bool
  end.

Lemma nl_run_cons_nl (r : str) : nl_run (NL :: r) = S (nl_run r).
Proof. reflexivity. Qed.

Lemma nl_run_cons_other (c : ascii) (r : str) : c <> NL -> nl_run (c :: r) = O.
Proof.
  intros H. unfold nl_run. cbn [take_while].
  destruct (Ascii.eqb_spec NL c); [congruence|reflexivity].
Qed.

Lemma nl3_free_sound (s : str) : nl3_free s = true -> ~ has_nl3 s.
Proof.
  intros H (a & b & E). subst s. induction a as [|c a IH].
  - cbn in H. discriminate.
  - apply IH. cbn [app nl3_free] in H.
    apply andb_prop in H. apply H.
Qed.

Lemma nl_run_ge3 (s : str) :
  (3 <= nl_run s)%nat -> exists b, s = [NL; NL; NL] ++ b.
Proof.
  intros H.
  destruct s as [|c1 s]; [cbn in H; lia|].
  destruct (Ascii.eqb_spec c1 NL) as [->|Hc];
    [|rewrite (nl_run_cons_other _ _ Hc) in H; lia].
  rewrite nl_run_cons_nl in H.
  destruct s as [|c2 s]; [cbn in H; lia|].
  destruct (Ascii.eqb_spec c2 NL) as [->|Hc];
    [|rewrite (nl_run_cons_other _ _ Hc) in H; lia].
  rewrite nl_run_cons_nl in H.
  destruct s as [|c3 s]; [cbn in H; lia|].
  destruct (Ascii.eqb_spec c3 NL) as [->|Hc];
    [|rewrite (nl_run_cons_other _ _ Hc) in H; lia].
  now exists s.
Qed.

Lemma nl3_free_complete (s : str) : ~ has_nl3 s -> nl3_free s = true.
Proof.
  induction s as [|c r IH]; intros H; [reflexivity|].
  cbn [nl3_free]. apply andb_true_intro. split.
  - apply Nat.ltb_lt. destruct (Nat.lt_ge_cases (nl_run (c :: r)) 3); auto.
    exfalso. apply H. destruct (nl_run_ge3 (c :: r)) as [b E]; auto.
    exists [], b. exact E.
  - apply IH. intros (a & b & E). apply H. exists (c :: a), b. now rewrite E.
Qed.

Lemma newlines3_None (s : str) :
  (nl_run s < 3)%nat -> newlines3 s = None.
Proof.
  intros H. unfold newlines3. fold (nl_run s).
  destruct (Nat.leb_spec 3 (nl_run s)); [lia|reflexivity].
Qed.

Lemma newlines3_Some (s : str) :
  (3 <= nl_run s)%nat -> newlines3 s = Some ([NL; NL], nl_run s).
Proof.
  intros H. unfold newlines3. fold (nl_run s).
  destruct (Nat.leb_spec 3 (nl_run s)); [reflexivity|lia].
Qed.

Lemma nl_run_skipn (s : str) : nl_run (skipn (nl_run s) s) = O.
Proof.
  induction s as [|c r IH]; [reflexivity|].
  destruct (Ascii.eqb_spec c NL) as [->|Hc].
  - rewrite nl_run_cons_nl. cbn [skipn]. exact IH.
  - rewrite (nl_run_cons_other _ _ Hc). cbn [skipn]. now apply nl_run_cons_other.
Qed.

(** After the first substitution no run of newlines is longer than two,
    and a leading run keeps its length up to two. *)
Lemma re_sub_newlines3_run (s : str) :
  nl3_free (re_sub newlines3 s) = true
  /\ nl_run (re_sub newlines3 s) = Nat.min 2 (nl_run s).
Proof.
  remember (length s) as n eqn:Hn.
  revert s Hn. induction n as [n IH] using lt_wf_ind. intros s Hn.
  destruct s as [|c r]; [split; reflexivity|].
  rewrite re_sub_cons.
  destruct (Nat.lt_ge_cases (nl_run (c :: r)) 3) as [Hlt|Hge].
  - rewrite (newlines3_None _ Hlt).
    destruct (IH (length r)) with (s := r) as [IHf IHr];
      [cbn in Hn; lia|reflexivity|].
    destruct (Ascii.eqb_spec c NL) as [->|Hc].
    + rewrite nl_run_cons_nl in Hlt.
      assert (Hrun : nl_run (NL :: re_sub newlines3 r) = S (nl_run r)).
      { rewrite nl_run_cons_nl, IHr. lia. }
      split.
      * cbn [nl3_free]. rewrite Hrun, IHf.
        apply andb_true_intro. split; [apply Nat.ltb_lt; lia|reflexivity].
      * rewrite Hrun, nl_run_cons_nl. lia.
    + split.
      * cbn [nl3_free]. rewrite (nl_run_cons_other _ _ Hc), IHf. reflexivity.
      * now rewrite !(nl_run_cons_other _ _ Hc).
  - rewrite (newlines3_Some _ Hge).
    assert (Hskip : skipn (Nat.pred (nl_run (c :: r))) r
                    = skipn (nl_run (c :: r)) (c :: r)).
    { destruct (nl_run (c :: r)); [lia|reflexivity]. }
    rewrite Hskip.
    set (t := skipn (nl_run (c :: r)) (c :: r)).
    destruct (IH (length t)) with (s := t) as [IHf IHr].
    { subst t. rewrite length_skipn. cbn [length] in *. lia. }
    { reflexivity. }
    assert (Ht : nl_run (re_sub newlines3 t) = O).
    { rewrite IHr. subst t. now rewrite nl_run_skipn. }
    cbn [app]. split.
    + cbn [nl3_free]. rewrite !nl_run_cons_nl, Ht, IHf. reflexivity.
    + rewrite !nl_run_cons_nl, Ht. lia.
Qed.

Lemma re_sub_newlines3_id (s : str) :
  nl3_free s = true -> re_sub newlines3 s = s.
Proof.
  induction s as [|c r IH]; intros H; [reflexivity|].
  cbn [nl3_free] in H. apply andb_prop in H. destruct H as [Hrun Hr].
  apply Nat.ltb_lt in Hrun.
  rewrite re_sub_cons, (newlines3_None _ Hrun). f_equal. now apply IH.
Qed.

(** ** [strip] *)

(** [s] neither starts nor ends with a whitespace character. *)
Definition stripped (s : str) : Prop :=
  (forall c r, s = c :: r -> is_space c = false)
  /\ (forall c r, s = r ++ [c] -> is_space c = false).

Lemma lstrip_suffix (s : str) : exists p, s = p ++ lstrip s.
Proof.
  induction s as [|c r [p IH]]; [now exists []|]. cbn.
  destruct (is_space c).
  - exists (c :: p). cbn. now f_equal.
  - now exists [].
Qed.

Lemma lstrip_head (s : str) (c : ascii) (r : str) :
  lstrip s = c :: r -> is_space c = false.
Proof.
  induction s as [|a s IH]; [discriminate|]. cbn.
  destruct (is_space a) eqn:Ha; [exact IH|].
  intros E. inversion E. now subst.
Qed.

Lemma rstrip_prefix (s : str) : exists q, s = rstrip s ++ q.
Proof.
  induction s as [|c r [q IH]]; [now exists []|]. cbn.
  destruct (rstrip r) as [|x y] eqn:E.
  - destruct (is_space c); [now exists (c :: r)|now exists r].
  - exists q. cbn. f_equal. exact IH.
Qed.

Lemma rstrip_last (s : str) :
  forall c r, rstrip s = r ++ [c] -> is_space c = false.
Proof.
  induction s as [|a s IH]; intros c r E.
  - destruct r; discriminate.
  - cbn in E. destruct (rstrip s) as [|x y] eqn:Hs.
    + destruct (is_space a) eqn:Ha.
      * destruct r; discriminate.
      * destruct r as [|r0 r]; cbn in E.
        -- inversion E. now subst.
        -- inversion E. destruct r; discriminate.
    + destruct r as [|r0 r]; cbn in E; [discriminate|].
      inversion E. subst r0. eapply IH. eassumption.
Qed.

Lemma rstrip_id (s : str) :
  (forall c r, s = r ++ [c] -> is_space c = false) -> rstrip s = s.
Proof.
  induction s as [|a s IH]; intros H; [reflexivity|].
  cbn. rewrite IH.
  - destruct s as [|x y]; [|reflexivity].
    now rewrite (H a [] eq_refl).
  - intros c r E. apply (H c (a :: r)). cbn. now f_equal.
Qed.

Lemma lstrip_id (s : str) :
  (forall c r, s = c :: r -> is_space c = false) -> lstrip s = s.
Proof.
  destruct s as [|c r]; intros H; [reflexivity|].
  cbn. now rewrite (H c r eq_refl).
Qed.

Lemma strip_stripped (s : str) : stripped (strip s).
Proof.
  unfold strip. split.
  - intros c r E.
    destruct (rstrip_prefix (lstrip s)) as [q Hq].
    rewrite E in Hq. cbn in Hq. eapply lstrip_head; eassumption.
  - apply rstrip_last.
Qed.

Lemma strip_id (s : str) : stripped s -> strip s = s.
Proof.
  intros [Hh Hl]. unfold strip. rewrite (lstrip_id s Hh). now apply rstrip_id.
Qed.

Lemma strip_infix (s : str) : exists p q, s = p ++ strip s ++ q.
Proof.
  destruct (lstrip_suffix s) as [p Hp].
  destruct (rstrip_prefix (lstrip s)) as [q Hq].
  exists p, q. unfold strip. now rewrite <- Hq.
Qed.

Lemma has_nl3_infix (p s q : str) : has_nl3 s -> has_nl3 (p ++ s ++ q).
Proof.
  intros (a & b & ->). exists (p ++ a), (b ++ q).
  now rewrite <- !app_assoc.
Qed.

(** ** [clean_markdown_content] *)

Lemma clean_markdown_content_eq (s : str) :
  clean_markdown_content s = strip (re_sub newlines3 s).
Proof.
  unfold clean_markdown_content. destruct s as [|c r]; [reflexivity|].
  cbn [truthy negb]. now rewrite re_sub_fence_opener_id.
Qed.

(** C10. [clean_markdown_content] is idempotent; its result has no
    leading or trailing whitespace and no three consecutive newlines. *)
Theorem clean_markdown_content_idempotent (s : str) :
  clean_markdown_content (clean_markdown_content s) = clean_markdown_content s
  /\ stripped (clean_markdown_content s)
  /\ ~ has_nl3 (clean_markdown_content s).
Proof.
  rewrite !clean_markdown_content_eq.
  assert (Hfree : ~ has_nl3 (strip (re_sub newlines3 s))).
  { intros H. destruct (strip_infix (re_sub newlines3 s)) as (p & q & E).
    apply (has_nl3_infix p _ q) in H. rewrite <- E in H.
    revert H. apply nl3_free_sound. apply re_sub_newlines3_run. }
  split; [|split; [apply strip_stripped|exact Hfree]].
  rewrite (re_sub_newlines3_id _ (nl3_free_complete _ Hfree)).
  apply strip_id, strip_stripped.
Qed.

(* ================================================================== *)
(** * Properties of llm_summarizer.py *)

(** ** Splitting at issue headers *)

Lemma re_split_tail_concat (ahead : str -> bool) (s : str) :
  concat (re_split_tail ahead s) = s.
Proof.
  induction s as [|c r IH]; [reflexivity|]. cbn [re_split_tail].
  destruct (re_split_tail ahead r) as [|p ps] eqn:E.
  - cbn in IH. now subst r.
  - destruct (ahead r); cbn [concat app] in *; now rewrite IH.
Qed.

(** The pieces of [re.split] put back together are the text. *)
Lemma re_split_concat (ahead : str -> bool) (s : str) :
  concat (re_split ahead s) = s.
Proof.
  unfold re_split. destruct (ahead s); cbn [concat app];
    apply re_split_tail_concat.
Qed.

(** ** The greedy packer *)

Fixpoint total_estimate (l : list str) : Z :=
  match l with
  | [] => 0
  | s :: rest => estimate_tokens s + total_estimate rest
  end.

(** An issue over the budget is the only member of its group. *)
Definition oversized_alone (max_tokens : Z) (g : list str) : Prop :=
  forall i, In i g -> max_tokens < estimate_tokens i -> g = [i].

(** What the loop of [_chunk_content] keeps true: [groups] are the closed
    chunks before joining, [seen] the issues consumed so far. *)
Record pack_inv (max_tokens : Z) (st : pack_state) (groups : list (list str))
       (seen : list str) : Prop := mk_pack_inv {
  inv_chunks : chunks st = map (join [NL]) groups;
  inv_seen : concat groups ++ current_chunk st = seen;
  inv_nonempty : Forall (fun g => g <> []) groups;
  inv_size : current_size st = total_estimate (current_chunk st);
  inv_current : oversized_alone max_tokens (current_chunk st);
  inv_groups : Forall (oversized_alone max_tokens) groups
}.

Lemma estimate_tokens_nonneg (s : str) : 0 <= estimate_tokens s.
Proof. unfold estimate_tokens. apply Z.div_pos; [apply len_nonneg|lia]. Qed.

Lemma total_estimate_app (a b : list str) :
  total_estimate (a ++ b) = total_estimate a + total_estimate b.
Proof.
  induction a as [|x a IH]; cbn [app total_estimate]; [reflexivity|].
  rewrite IH. lia.
Qed.

Lemma total_estimate_nonneg (l : list str) : 0 <= total_estimate l.
Proof.
  induction l as [|x l IH]; cbn [total_estimate]; [lia|].
  pose proof (estimate_tokens_nonneg x). lia.
Qed.

Lemma total_estimate_In (l : list str) (i : str) :
  In i l -> estimate_tokens i <= total_estimate l.
Proof.
  induction l as [|x l IH]; intros H; [contradiction|].
  cbn [total_estimate]. destruct H as [->|H].
  - pose proof (total_estimate_nonneg l). lia.
  - specialize (IH H). pose proof (estimate_tokens_nonneg x). lia.
Qed.

Lemma truthy_false {A : Type} (l : list A) : truthy l = false <-> l = [].
Proof. destruct l; cbn; split; congruence. Qed.

Lemma truthy_true {A : Type} (l : list A) : truthy l = true <-> l <> [].
Proof. destruct l; cbn; split; congruence. Qed.

(** The test that closes the current chunk. *)
Definition closes (max_tokens : Z) (st : pack_state) (issue : str) : Prop :=
  max_tokens < current_size st + estimate_tokens issue /\ current_chunk st <> [].

Lemma pack_step_closes (max_tokens : Z) (st : pack_state) (issue : str) :
  closes max_tokens st issue ->
  pack_step max_tokens st issue =
  {| chunks := chunks st ++ [join [NL] (current_chunk st)];
     current_chunk := [issue];
     current_size := estimate_tokens issue |}.
Proof.
  intros [Hlt Hne]. unfold pack_step.
  destruct (Z.ltb_spec max_tokens (current_size st + estimate_tokens issue)); [|lia].
  apply truthy_true in Hne. now rewrite Hne.
Qed.

Lemma pack_step_appends (max_tokens : Z) (st : pack_state) (issue : str) :
  ~ closes max_tokens st issue ->
  pack_step max_tokens st issue =
  {| chunks := chunks st;
     current_chunk := current_chunk st ++ [issue];
     current_size := current_size st + estimate_tokens issue |}.
Proof.
  intros Hn. unfold pack_step.
  destruct (Z.ltb_spec max_tokens (current_size st + estimate_tokens issue));
    [|reflexivity].
  destruct (truthy (current_chunk st)) eqn:Ht; [|reflexivity].
  exfalso. apply Hn. split; [assumption|]. now apply truthy_true.
Qed.

Lemma closes_dec (max_tokens : Z) (st : pack_state) (issue : str) :
  closes max_tokens st issue \/ ~ closes max_tokens st issue.
Proof.
  unfold closes.
  destruct (Z.lt_ge_cases max_tokens (current_size st + estimate_tokens issue));
    [|right; lia].
  destruct (current_chunk st); [right; intros [_ H']; congruence|left].
  split; [assumption|discriminate].
Qed.

Lemma pack_step_inv (max_tokens : Z) (st : pack_state) (groups : list (list str))
      (seen : list str) (issue : str) :
  pack_inv max_tokens st groups seen ->
  exists groups',
    pack_inv max_tokens (pack_step max_tokens st issue) groups' (seen ++ [issue]).
Proof.
  intros [Hc Hs Hn Hz Hcur Hg].
  destruct (closes_dec max_tokens st issue) as [Hcl|Hncl].
  - rewrite (pack_step_closes _ _ _ Hcl). destruct Hcl as [Hlt Hne].
    exists (groups ++ [current_chunk st]). constructor; cbn.
    + now rewrite map_app, Hc.
    + rewrite concat_app. cbn [concat]. now rewrite app_nil_r, Hs.
    + apply Forall_app. split; [assumption|]. now constructor.
    + lia.
    + intros i [<-|[]] _. reflexivity.
    + apply Forall_app. split; [assumption|]. now constructor.
  - rewrite (pack_step_appends _ _ _ Hncl).
    exists groups. constructor; cbn; try assumption.
    + now rewrite app_assoc, Hs.
    + rewrite total_estimate_app. cbn [total_estimate]. lia.
    + destruct (current_chunk st) as [|x rest] eqn:Ecur.
      * intros i [<-|[]] _. reflexivity.
      * assert (Hle : current_size st + estimate_tokens issue <= max_tokens).
        { unfold closes in Hncl. rewrite Ecur in Hncl.
          destruct (Z.lt_ge_cases max_tokens (current_size st + estimate_tokens issue));
            [|lia].
          exfalso. apply Hncl. split; [assumption|discriminate]. }
        intros i Hi Hbig. exfalso.
        pose proof (estimate_tokens_nonneg issue).
        pose proof (total_estimate_nonneg (x :: rest)).
        apply in_app_or in Hi. destruct Hi as [Hi|[<-|[]]].
        -- apply total_estimate_In in Hi. lia.
        -- lia.
Qed.

Lemma pack_fold_inv (max_tokens : Z) (issues : list str) :
  forall st groups seen,
    pack_inv max_tokens st groups seen ->
    exists groups',
      pack_inv max_tokens (fold_left (pack_step max_tokens) issues st) groups'
               (seen ++ issues).
Proof.
  induction issues as [|i rest IH]; intros st groups seen Hinv.
  - exists groups. now rewrite app_nil_r.
  - cbn [fold_left].
    destruct (pack_step_inv max_tokens st groups seen i Hinv) as [g1 H1].
    destruct (IH _ _ _ H1) as [g2 H2].
    exists g2. now rewrite <- app_assoc in H2.
Qed.

Lemma pack_init_inv (max_tokens : Z) : pack_inv max_tokens pack_init [] [].
Proof.
  constructor; cbn; try reflexivity; try constructor.
  intros i [].
Qed.

(** The chunks of a document over budget are the joined groups of a
    grouping of its issue blocks. *)
Lemma chunk_content_groups (content : str) (max_tokens : Z) :
  max_tokens < estimate_tokens content ->
  exists groups,
    _chunk_content content max_tokens = map (join [NL]) groups
    /\ concat groups = issue_blocks content
    /\ Forall (fun g => g <> []) groups
    /\ Forall (oversized_alone max_tokens) groups.
Proof.
  intros Hover. unfold _chunk_content.
  destruct (Z.leb_spec (estimate_tokens content) max_tokens); [lia|].
  destruct (pack_fold_inv max_tokens (issue_blocks content) _ _ _
              (pack_init_inv max_tokens)) as [groups [Hc Hs Hn Hz Hcur Hg]].
  cbn [app] in Hs.
  destruct (current_chunk (fold_left (pack_step max_tokens) (issue_blocks content)
                             pack_init)) as [|x rest] eqn:Ecur.
  - exists groups. cbn [truthy]. rewrite app_nil_r in Hs. now repeat split.
  - exists (groups ++ [x :: rest]). cbn [truthy]. repeat split.
    + now rewrite map_app, Hc.
    + rewrite concat_app. cbn. now rewrite app_nil_r.
    + apply Forall_app. split; [assumption|]. constructor; [discriminate|constructor].
    + apply Forall_app. split; [assumption|]. constructor; [assumption|constructor].
Qed.




(** ** Sizes of the chunks *)

Lemma len_join_nonempty (sep : str) (g : list str) :
  g <> [] -> len (join sep g) = len (concat g) + len sep * (len g - 1).
Proof.
  induction g as [|x [|y rest] IH]; intros H; [congruence| |].
  - cbn [join concat]. rewrite app_nil_r. change (len [x]) with 1. lia.
  - change (join sep (x :: y :: rest)) with (x ++ sep ++ join sep (y :: rest)).
    change (concat (x :: y :: rest)) with (x ++ concat (y :: rest)).
    rewrite !len_app, IH by discriminate.
    rewrite (len_cons x). lia.
Qed.

Lemma len_concat_joined (groups : list (list str)) :
  Forall (fun g => g <> []) groups ->
  len (concat (map (join [NL]) groups))
  = len (concat (concat groups)) + (len (concat groups) - len groups).
Proof.
  induction 1 as [|g gs Hg Hgs IH].
  - reflexivity.
  - cbn [map concat]. rewrite !concat_app, !len_app, IH, len_cons.
    rewrite (len_join_nonempty [NL] g Hg).
    change (len [NL]) with 1. lia.
Qed.

Lemma estimate_rounding (l : list str) :
  4 * total_estimate l <= len (concat l) <= 4 * total_estimate l + 3 * len l.
Proof.
  induction l as [|x l IH].
  - cbn. lia.
  - cbn [total_estimate concat]. rewrite len_app, len_cons.
    unfold estimate_tokens.
    pose proof (Z.div_mod (len x) 4 ltac:(lia)).
    pose proof (Z.mod_pos_bound (len x) 4 ltac:(lia)). lia.
Qed.

Lemma len_concat_filter (f : str -> bool) (l : list str) :
  len (concat (filter f l)) + len (concat (filter (fun x => negb (f x)) l))
  = len (concat l).
Proof.
  induction l as [|x l IH]; [reflexivity|].
  cbn [filter concat]. destruct (f x); cbn [negb concat];
    rewrite !len_app; lia.
Qed.

Lemma len_blocks (content : str) :
  len (concat (issue_blocks content)) = len content - len (concat (blank_blocks content)).
Proof.
  unfold issue_blocks, blank_blocks.
  pose proof (len_concat_filter (fun i => truthy (strip i))
                (re_split issue_header_ahead content)) as H.
  rewrite re_split_concat in H. lia.
Qed.

(** The blocks a plan is made of: the whole document when it fits, its
    non-blank issue blocks otherwise. *)
Definition planned_blocks (content : str) (max_tokens : Z) : list str :=
  if estimate_tokens content <=? max_tokens then [content] else issue_blocks content.

(** Characters of the document that are in no chunk. *)
Definition dropped_chars (content : str) (max_tokens : Z) : Z :=
  if estimate_tokens content <=? max_tokens then 0
  else len (concat (blank_blocks content)).

(** C2, as the code has it. Every chunk is the newline-join of a run of
    whole blocks, the runs in order make up all the blocks; the characters
    of the chunks are those of the document, less a dropped blank block,
    plus one newline for each block joined to its predecessor; the summed
    estimate is a quarter of that, less under one token per chunk. *)
Theorem chunk_content_whole_blocks (content : str) (max_tokens : Z) :
  let chunks := _chunk_content content max_tokens in
  let blocks := planned_blocks content max_tokens in
  exists groups,
    chunks = map (join [NL]) groups
    /\ concat groups = blocks
    /\ Forall (fun g => g <> []) groups
    /\ len (concat chunks)
       = len content - dropped_chars content max_tokens + (len blocks - len chunks)
    /\ 4 * total_estimate chunks <= len (concat chunks)
       <= 4 * total_estimate chunks + 3 * len chunks.
Proof.
  cbv zeta. unfold planned_blocks, dropped_chars.
  destruct (Z.leb_spec (estimate_tokens content) max_tokens) as [Hfit|Hover].
  - exists [[content]].
    assert (E : _chunk_content content max_tokens = [content]).
    { unfold _chunk_content.
      destruct (Z.leb_spec (estimate_tokens content) max_tokens); [reflexivity|lia]. }
    rewrite E. split; [reflexivity|]. split; [reflexivity|].
    split; [constructor; [discriminate|constructor]|].
    split; [|apply estimate_rounding].
    cbn [concat]. rewrite app_nil_r. change (len [content]) with 1. lia.
  - destruct (chunk_content_groups content max_tokens Hover)
      as (groups & Hchunks & Hcat & Hne & _).
    exists groups. split; [assumption|]. split; [assumption|].
    split; [assumption|]. split; [|apply estimate_rounding].
    rewrite Hchunks, (len_concat_joined groups Hne), len_map, Hcat, len_blocks.
    lia.
Qed.

(** The claim's reading of equal up to rounding: the summed estimate of the
    chunks is within one token per chunk of the document's estimate. *)
Definition estimates_agree (content : str) (max_tokens : Z) : Prop :=
  Z.abs (total_estimate (_chunk_content content max_tokens) - estimate_tokens content)
  <= len (_chunk_content content max_tokens).

(** Forty-two issues of sixteen characters each. *)
Definition doc_small_issues : str :=
  concat (repeat (lit "## Issue #7: x" ++ [NL; NL]) 42).

(** C2, counterexample. With a budget of 167 tokens the 168-token document
    above is planned as two chunks whose estimates sum to 178: the forty
    newlines that join the first chunk's issues are ten tokens. *)
Lemma chunk_content_estimate_counterexample :
  estimate_tokens doc_small_issues = 168
  /\ len (_chunk_content doc_small_issues 167) = 2
  /\ total_estimate (_chunk_content doc_small_issues 167) = 178
  /\ ~ estimates_agree doc_small_issues 167.
Proof.
  split; [vm_compute; reflexivity|].
  split; [vm_compute; reflexivity|].
  split; [vm_compute; reflexivity|].
  unfold estimates_agree. vm_compute. intros H. now apply H.
Qed.

(** ** [summarize_content] *)

(** [replies] are the backend's answers to [calls], made in this order
    after the calls of [log]. *)
Fixpoint replies_to (llm : list llm_call -> llm_call -> result str)
         (log : list llm_call) (calls : list llm_call) (replies : list str) : Prop :=
  match calls, replies with
  | [], [] => True
  | c :: cs, r :: rs => llm log c = Ok r /\ replies_to llm (log ++ [c]) cs rs
  | _, _ => False
  end.

(** The chunk calls of a plan: chunk [i] of [total] with its position in
    the prompt, counted from [first]. *)
Definition part_calls (total : nat) (repo_info : str) (first : nat) (todo : list str)
  : list llm_call :=
  map (fun ic => (_create_system_prompt,
                  _create_user_prompt (snd ic) (part_info (fst ic) total repo_info)))
      (combine (seq first (length todo)) todo).











(* ================================================================== *)
(** * Properties of github_scraper.py *)

(** ** [_make_request] *)

(** [m] only adds events to the trace. *)
Definition extends_trace {A : Type} (m : M A) : Prop :=
  forall w, exists rest, trace (snd (m w)) = trace w ++ rest.

Lemma retrying_extends {A : Type} (f : M A) :
  extends_trace f ->
  forall n a w, exists rest,
    trace (snd (retrying (S n) a f w)) = trace (snd (f w)) ++ rest.
Proof.
  intros Hf n. induction n as [|n IH]; intros a w.
  - cbn [retrying]. destruct (f w) as [[x|e|] w']; cbn [snd];
      exists []; now rewrite app_nil_r.
  - cbn [retrying]. destruct (f w) as [[x|e|] w'] eqn:E; cbn [snd];
      try (exists []; now rewrite app_nil_r).
    destruct (IH (a + 1) (sleep (wait_exponential a) w')) as [rest Hrest].
    destruct (Hf (sleep (wait_exponential a) w')) as [r1 Hr1].
    cbn [retrying] in Hrest. rewrite Hrest, Hr1. cbn [sleep trace].
    eexists. rewrite <- !app_assoc. reflexivity.
Qed.

Section MakeRequestFacts.
Context {J : Type}.
Variable net : network J.

Lemma request_once_extends (self : str -> params_t -> M (response J))
      (url : str) (params : params_t) :
  (forall u p, extends_trace (self u p)) ->
  forall w, exists rest,
    trace (snd (request_once net self url params w))
    = trace w ++ EGet url params :: rest.
Proof.
  intros Hself w. unfold request_once, session_get.
  set (w1 := {| served := S (served w); clock := clock w;
                trace := trace w ++ [EGet url params] |}).
  assert (Hbase : trace w1 = trace w ++ [EGet url params]) by reflexivity.
  destruct (net (served w) url params) as [r|]; cbn [snd];
    [|exists []; exact Hbase].
  destruct (status_code r =? 403); [|exists []; exact Hbase].
  destruct (rate_remaining r) as [rem|]; [|exists []; exact Hbase].
  destruct (rem =? 0); [|exists []; exact Hbase].
  destruct (rate_reset r) as [reset|]; [|exists []; exact Hbase].
  destruct (0 <? reset - clock w1 + 1); [|exists []; exact Hbase].
  destruct (Hself url params (sleep (reset - clock w1 + 1) w1)) as [rest Hrest].
  rewrite Hrest. cbn [sleep trace]. rewrite Hbase.
  eexists. rewrite <- !app_assoc. reflexivity.
Qed.

Lemma make_request_extends (fuel : nat) (url : str) (params : params_t) :
  extends_trace (_make_request net fuel url params).
Proof.
  revert url params. induction fuel as [|f IH]; intros url params w.
  - exists []. cbn. now rewrite app_nil_r.
  - cbn [_make_request].
    assert (Hf : extends_trace (request_once net (_make_request net f) url params)).
    { intros w0. destruct (request_once_extends _ url params IH w0) as [r Hr].
      eexists. exact Hr. }
    destruct (retrying_extends _ Hf 2 1 w) as [rest Hrest].
    destruct (Hf w) as [r1 Hr1].
    rewrite Hrest, Hr1. eexists. rewrite <- app_assoc. reflexivity.
Qed.

(** Every call of [_make_request] starts by sending the request. *)
Lemma make_request_first_event (fuel : nat) (url : str) (params : params_t)
      (w : world) :
  exists rest,
    trace (snd (_make_request net (S fuel) url params w))
    = trace w ++ EGet url params :: rest.
Proof.
  cbn [_make_request].
  assert (Hf : extends_trace (request_once net (_make_request net fuel) url params)).
  { intros w0.
    destruct (request_once_extends _ url params
                (make_request_extends fuel) w0) as [r Hr].
    eexists. exact Hr. }
  destruct (retrying_extends _ Hf 2 1 w) as [rest Hrest].
  destruct (request_once_extends _ url params (make_request_extends fuel) w)
    as [r1 Hr1].
  rewrite Hrest, Hr1. eexists. rewrite <- app_assoc. reflexivity.
Qed.

(** C7. A 403 response with no remaining quota and a reset five seconds
    after the current second (read in that second or the next) makes
    [_make_request] sleep for at least 5 and less than 7 seconds and
    then send the same request, URL and params, again. *)
Theorem make_request_rate_limit_wait
  (fuel : nat) (url : str) (params : params_t) (w : world)
  (r : response J) (now : Z) :
  net (served w) url params = Reply r ->
  status_code r = 403 ->
  rate_remaining r = Some 0 ->
  rate_reset r = Some (now + 5) ->
  now <= clock w <= now + 1 ->
  exists seconds rest,
    5 <= seconds < 7
    /\ trace (snd (_make_request net (S (S fuel)) url params w))
       = trace w ++ EGet url params :: ESleep seconds :: EGet url params :: rest.
Proof.
  intros Hnet Hstatus Hrem Hreset Hnow.
  exists (now + 5 - clock w + 1).
  change (_make_request net (S (S fuel)) url params)
    with (retrying 3 1 (request_once net (_make_request net (S fuel)) url params)).
  assert (Hf : extends_trace
                 (request_once net (_make_request net (S fuel)) url params)).
  { intros w0.
    destruct (request_once_extends _ url params
                (make_request_extends (S fuel)) w0) as [r0 Hr0].
    eexists. exact Hr0. }
  destruct (retrying_extends _ Hf 2 1 w) as [rest Hrest].
  rewrite Hrest. clear Hrest.
  unfold request_once at 1, session_get. rewrite Hnet, Hstatus, Hrem, Hreset.
  cbn [Z.eqb Pos.eqb clock].
  destruct (Z.ltb_spec 0 (now + 5 - clock w + 1)) as [_|Hbad]; [|lia].
  match goal with
  | |- context [_make_request net (S fuel) url params ?w2] =>
      destruct (make_request_first_event fuel url params w2) as [rest2 Hrest2];
      rewrite Hrest2
  end.
  cbn [sleep trace]. exists (rest2 ++ rest). split; [lia|].
  rewrite <- !app_assoc. reflexivity.
Qed.
End MakeRequestFacts.

(** A server that answers the first request with a rate-limit refusal
    whose reset is 1005, and every later one with an empty page. *)
Definition net_limited_once : network (list api_object) :=
  fun n _ _ =>
    match n with
    | O => Reply {| status_code := 403; rate_remaining := Some 0;
                    rate_reset := Some 1005; link := None; json := [] |}
    | S _ => Reply {| status_code := 200; rate_remaining := Some 59;
                      rate_reset := Some 4600; link := None; json := [] |}
    end.

Definition world_at (t : Z) : world := {| served := 0; clock := t; trace := [] |}.

Lemma make_request_rate_limit_wait_witness :
  exists seconds rest,
    5 <= seconds < 7
    /\ trace (snd (_make_request net_limited_once 2
                     (issues_url (lit "o") (lit "r")) (issues_params 1) (world_at 1000)))
       = trace (world_at 1000)
         ++ EGet (issues_url (lit "o") (lit "r")) (issues_params 1)
         :: ESleep seconds
         :: EGet (issues_url (lit "o") (lit "r")) (issues_params 1) :: rest.
Proof.
  apply (make_request_rate_limit_wait net_limited_once 0
           (issues_url (lit "o") (lit "r")) (issues_params 1) (world_at 1000)
           {| status_code := 403; rate_remaining := Some 0;
              rate_reset := Some 1005; link := None; json := [] |} 1000).
  - reflexivity.
  - reflexivity.
  - reflexivity.
  - reflexivity.
  - cbn. lia.
Defined.

(** A response that is neither a rate-limit refusal nor an error status
    is returned after the one request. *)
Lemma make_request_ok {J : Type} (net : network J) (fuel : nat) (url : str)
      (params : params_t) (w : world) (r : response J) :
  net (served w) url params = Reply r ->
  status_code r <> 403 ->
  ~ (400 <= status_code r < 600) ->
  _make_request net (S fuel) url params w
  = (Returns r, {| served := S (served w); clock := clock w;
                   trace := trace w ++ [EGet url params] |}).
Proof.
  intros Hnet H403 Hok. cbn [_make_request retrying].
  unfold request_once, session_get. rewrite Hnet.
  destruct (Z.eqb_spec (status_code r) 403); [contradiction|].
  unfold raise_for_status.
  destruct (Z.leb_spec 400 (status_code r)); destruct (Z.ltb_spec (status_code r) 600);
    cbn [andb]; try reflexivity. lia.
Qed.

(** ** [fetch_issues] *)

Definition no_pull_request (l : list api_object) : Prop :=
  Forall (fun issue => pull_request issue = false) l.

Lemma filter_no_pull_request (l : list api_object) :
  no_pull_request (filter (fun issue => negb (pull_request issue)) l).
Proof.
  unfold no_pull_request. apply Forall_forall. intros x Hx.
  apply filter_In in Hx. destruct Hx as [_ Hx].
  now destruct (pull_request x).
Qed.

Lemma slice_to_no_pull_request (l : list api_object) (m : Z) :
  no_pull_request l -> no_pull_request (slice_to l m).
Proof.
  unfold no_pull_request, slice_to. intros H.
  rewrite <- (firstn_skipn (slice_index l m) l) in H.
  apply Forall_app in H. apply H.
Qed.

Section FetchIssuesFacts.
Variable net : network (list api_object).
Variable owner repo : str.
Variable max_issues : option Z.

Lemma fetch_loop_no_pull_request (rl_fuel : nat) :
  forall fuel page issues w,
    no_pull_request issues ->
    match fst (fetch_loop net owner repo max_issues fuel rl_fuel page issues w) with
    | Returns out => no_pull_request out
    | _ => True
    end.
Proof.
  induction fuel as [|f IH]; intros page issues w Hacc; [exact I|].
  cbn [fetch_loop].
  destruct (_make_request net rl_fuel (issues_url owner repo) (issues_params page) w)
    as [[resp|e|] w1]; cbn [fst]; [|destruct (is_RequestException e); cbn; auto|exact I].
  destruct (truthy (json resp)); cbn [negb fst]; [|exact Hacc].
  set (acc := issues ++ filter (fun issue => negb (pull_request issue)) (json resp)).
  assert (Hacc' : no_pull_request acc).
  { apply Forall_app. split; [assumption|apply filter_no_pull_request]. }
  destruct (cap_reached max_issues acc) as [m|]; cbn [fst].
  - now apply slice_to_no_pull_request.
  - match goal with
    | |- context [if ?b then _ else _] => destruct b
    end; [apply IH; assumption|exact Hacc'].
Qed.
End FetchIssuesFacts.

Section ServedPages.
Variable pages : list (list api_object).
Variable owner repo : str.
Variable max_issues : option Z.

Lemma requested_issues_page (page : Z) : requested_page (issues_params page) = page.
Proof. reflexivity. Qed.

(** Against the paging server the loop finishes within one request per
    page and one more. *)
Lemma fetch_loop_served (rl_fuel : nat) :
  forall fuel page issues w,
    1 <= page ->
    Z.max 1 (len pages - page + 2) <= Z.of_nat fuel ->
    exists out w',
      fetch_loop (serve_pages pages) owner repo max_issues fuel (S rl_fuel)
                 page issues w = (Returns out, w').
Proof.
  induction fuel as [|f IH]; intros page issues w Hpage Hfuel.
  - exfalso. cbn in Hfuel. lia.
  - cbn [fetch_loop].
    rewrite (make_request_ok (serve_pages pages) rl_fuel _ _ w
               (mk_response _ 200 (Some 4999) (Some 0)
                  (if page <? len pages
                   then Some (lit "<https://api.github.com/next>; " ++ REL_NEXT)
                   else None)
                  (nth (Z.to_nat (page - 1)) pages [])));
      [|reflexivity|cbn; lia|cbn; lia].
    cbn [json link].
    destruct (truthy (nth (Z.to_nat (page - 1)) pages [])) eqn:Hne;
      cbn [negb]; [|eauto].
    destruct (cap_reached max_issues _) as [m|]; [eauto|].
    destruct (Z.ltb_spec page (len pages)) as [Hlt|Hge].
    + assert (Hnext : contains REL_NEXT
                        (lit "<https://api.github.com/next>; " ++ REL_NEXT) = true)
        by (vm_compute; reflexivity).
      rewrite Hnext. apply IH; lia.
    + match goal with
      | |- context [if ?b then _ else _] => destruct b
      end; [|eauto].
      assert (Hin : (Z.to_nat (page - 1) < length pages)%nat).
      { destruct (Nat.lt_ge_cases (Z.to_nat (page - 1)) (length pages)); auto.
        rewrite nth_overflow in Hne by assumption. discriminate. }
      apply IH; unfold len in *; lia.
Qed.
End ServedPages.

(** C9. Pull-request objects are filtered out of every page before it is
    accumulated: whatever the server answers, a list returned by
    [fetch_issues] holds no object with the [pull_request] key; and
    against a server that serves any given sequence of pages the fetch
    does return such a list. *)
Theorem fetch_issues_no_pull_requests
  (net : network (list api_object)) (pages : list (list api_object))
  (owner repo : str) (max_issues : option Z) (fuel rl_fuel : nat) (w : world) :
  match fst (fetch_issues net owner repo max_issues fuel rl_fuel w) with
  | Returns out => no_pull_request out
  | _ => True
  end
  /\ exists out w',
       fetch_issues (serve_pages pages) owner repo max_issues
                    (S (length pages)) (S rl_fuel) w = (Returns out, w')
       /\ no_pull_request out.
Proof.
  split.
  - apply fetch_loop_no_pull_request. constructor.
  - destruct (fetch_loop_served pages owner repo max_issues rl_fuel
                (S (length pages)) 1 [] w) as (out & w' & Hrun);
      [lia|unfold len; lia|].
    exists out, w'. split; [exact Hrun|].
    pose proof (fetch_loop_no_pull_request (serve_pages pages) owner repo max_issues
                  (S rl_fuel) (S (length pages)) 1 [] w) as H.
    unfold fetch_issues in *. rewrite Hrun in H. apply H. constructor.
Qed.

Lemma slice_to_positive {A : Type} (l : list A) (m : Z) :
  0 < m -> slice_to l m = firstn (Z.to_nat m) l.
Proof.
  intros Hm. unfold slice_to, slice_index.
  destruct (Z.ltb_spec m 0); [lia|].
  destruct (Z.le_gt_cases m (len l)).
  - f_equal. lia.
  - replace (Z.to_nat (Z.min (len l) (Z.max 0 m))) with (length l)
      by (unfold len in *; lia).
    rewrite firstn_all. symmetry. apply firstn_all2. unfold len in *. lia.
Qed.

Lemma cap_reached_positive (m : Z) (issues : list api_object) :
  0 < m ->
  cap_reached (Some m) issues = if m <=? len issues then Some m else None.
Proof.
  intros Hm. unfold cap_reached.
  destruct (Z.eqb_spec m 0); [lia|]. reflexivity.
Qed.

Section CapFacts.
Variable net : network (list api_object).
Variable owner repo : str.
Variable m : Z.
Hypothesis m_positive : 0 < m.

Lemma fetch_loop_cap (rl_fuel : nat) :
  forall fuel page issues w,
    len issues < m ->
    match fst (fetch_loop net owner repo (Some m) fuel rl_fuel page issues w) with
    | Returns out => len out <= m
    | _ => True
    end.
Proof.
  induction fuel as [|f IH]; intros page issues w Hacc; [exact I|].
  cbn [fetch_loop].
  destruct (_make_request net rl_fuel (issues_url owner repo) (issues_params page) w)
    as [[resp|e|] w1]; cbn [fst];
    [|destruct (is_RequestException e); cbn [fst]; [lia|exact I]|exact I].
  destruct (truthy (json resp)); cbn [negb fst]; [|lia].
  rewrite cap_reached_positive by assumption.
  match goal with
  | |- context [m <=? len ?acc] => destruct (Z.leb_spec m (len acc)) as [Hge|Hlt]
  end; cbn [fst].
  - rewrite slice_to_positive by assumption.
    unfold len. rewrite length_firstn. lia.
  - match goal with
    | |- context [if ?b then _ else _] => destruct b
    end; [apply IH; assumption|cbn [fst]; lia].
Qed.

Lemma fetch_loop_stops_at_cap (rl_fuel fuel : nat) (page : Z)
      (issues : list api_object) (w w1 : world) (resp : response (list api_object)) :
  _make_request net rl_fuel (issues_url owner repo) (issues_params page) w
  = (Returns resp, w1) ->
  json resp <> [] ->
  m <= len (issues ++ filter (fun issue => negb (pull_request issue)) (json resp)) ->
  fetch_loop net owner repo (Some m) (S fuel) rl_fuel page issues w
  = (Returns (firstn (Z.to_nat m)
                (issues ++ filter (fun issue => negb (pull_request issue)) (json resp))),
     w1)
  /\ len (firstn (Z.to_nat m)
            (issues ++ filter (fun issue => negb (pull_request issue)) (json resp)))
     = m.
Proof.
  intros Hreq Hne Hcap. cbn [fetch_loop]. rewrite Hreq.
  apply truthy_true in Hne. rewrite Hne. cbn [negb].
  rewrite cap_reached_positive by assumption.
  destruct (Z.leb_spec m (len (issues ++ filter (fun issue => negb (pull_request issue))
                                 (json resp)))); [|lia].
  rewrite slice_to_positive by assumption. split; [reflexivity|].
  unfold len in *. rewrite length_firstn. lia.
Qed.
End CapFacts.

(** C4, for a positive cap. A list returned by [fetch_issues] never has
    more than [max_issues] issues; and on the page that brings the
    accumulated count to the cap or beyond, the loop returns at once,
    with no further request, the first [max_issues] accumulated issues,
    exactly that many. *)
Theorem fetch_issues_cap
  (net : network (list api_object)) (owner repo : str) (m : Z) :
  0 < m ->
  (forall fuel rl_fuel w,
      match fst (fetch_issues net owner repo (Some m) fuel rl_fuel w) with
      | Returns out => len out <= m
      | _ => True
      end)
  /\ (forall fuel rl_fuel page issues w w1 resp,
        _make_request net rl_fuel (issues_url owner repo) (issues_params page) w
        = (Returns resp, w1) ->
        json resp <> [] ->
        m <= len (issues ++ filter (fun issue => negb (pull_request issue)) (json resp)) ->
        fetch_loop net owner repo (Some m) (S fuel) rl_fuel page issues w
        = (Returns (firstn (Z.to_nat m)
                      (issues ++ filter (fun issue => negb (pull_request issue))
                                   (json resp))),
           w1)
        /\ len (firstn (Z.to_nat m)
                  (issues ++ filter (fun issue => negb (pull_request issue))
                               (json resp)))
           = m).
Proof.
  intros Hm. split.
  - intros fuel rl_fuel w. apply fetch_loop_cap; [assumption|].
    change (len (@nil api_object)) with 0. lia.
  - intros fuel rl_fuel page issues w w1 resp.
    now apply fetch_loop_stops_at_cap.
Qed.

Lemma fetch_issues_cap_witness :
  0 < 2
  /\ match fst (fetch_issues
                  (serve_pages [[sample_issue 1 Null false; sample_issue 2 Null false;
                                 sample_issue 3 Null false]])
                  (lit "o") (lit "r") (Some 2) 2 1 (world_at 0)) with
     | Returns out => len out <= 2
     | _ => True
     end.
Proof.
  assert (H : 0 < 2) by lia.
  split; [exact H|].
  apply (proj1 (fetch_issues_cap
                  (serve_pages [[sample_issue 1 Null false; sample_issue 2 Null false;
                                 sample_issue 3 Null false]])
                  (lit "o") (lit "r") 2 H)).
Defined.

(** C4, counterexample. A cap of 0 is falsy, so it is not applied: with a
    single page of one issue, [fetch_issues] returns that issue. *)
Lemma fetch_issues_cap_zero_counterexample :
  fst (fetch_issues (serve_pages [[sample_issue 1 Null false]])
         (lit "o") (lit "r") (Some 0) 2 1 (world_at 0))
  = Returns [sample_issue 1 Null false]
  /\ 0 < len [sample_issue 1 Null false].
Proof. split; [vm_compute; reflexivity|reflexivity]. Qed.

(** ** [issues_to_markdown] *)

(** A parser that accepts nothing, and a comments endpoint that is down. *)
Definition fromisoformat_rejecting : str -> result datetime := fun _ => Raise ValueError.
Definition net_down : network (list comment) := fun _ _ _ => NetError.

(** C1, at the failing input. For an issue whose [body] key is present and
    empty ([''] or [null], as the API sends it) the Description section is
    empty and the placeholder is nowhere in the document; only an absent
    key yields the placeholder. *)
Theorem description_of_empty_body
  (n : Z) (t u c : str) (up : field) (l a : list str) (cm : Z) (pr : bool) :
  concat (description_section (mk_issue n t u c up l a (Text []) cm pr))
  = lit "### Description" ++ [NL; NL; NL; NL]
  /\ concat (description_section (mk_issue n t u c up l a Null cm pr))
     = lit "### Description" ++ [NL; NL; NL; NL]
  /\ concat (description_section (mk_issue n t u c up l a Missing cm pr))
     = lit "### Description" ++ [NL; NL] ++ NO_DESCRIPTION ++ [NL; NL]
  /\ (forall b, b = Text [] \/ b = Null ->
        fst (issues_to_markdown fromisoformat_rejecting net_down 1
               (lit "o") (lit "r") (lit "2024-05-02T00:00:00Z")
               [sample_issue 7 b false] true (world_at 0))
        = Returns
            (lit "# GitHub Issues for o/r" ++ [NL; NL]
             ++ lit "*Generated on 2024-05-02T00:00:00Z*" ++ [NL; NL]
             ++ lit "**Total Open Issues:** 1" ++ [NL; NL]
             ++ lit "---" ++ [NL; NL]
             ++ lit "## Issue #7: Crash on start" ++ [NL; NL]
             ++ lit "**Author:** octocat" ++ [NL]
             ++ lit "**Created:** 2024-05-01T10:20:30Z" ++ [NL]
             ++ lit "**Labels:** bug" ++ [NL] ++ [NL]
             ++ lit "### Description" ++ [NL; NL] ++ [NL; NL]
             ++ lit "---" ++ [NL; NL])).
Proof.
  split; [reflexivity|]. split; [reflexivity|]. split; [vm_compute; reflexivity|].
  intros b [->| ->]; vm_compute; reflexivity.
Qed.

(* ================================================================== *)
(** * More of utils.py *)

(** ** [parse_github_url] *)

Definition not_slash (c : ascii) : bool := negb (Ascii.eqb c "/").

Definition not_slash_dot (c : ascii) : bool :=
  (negb (Ascii.eqb c "/") && negb (Ascii.eqb c "."))%bool.

(** [re.search]: the match at the leftmost position that has one. *)
Fixpoint re_search {A : Type} (m : str -> option A) (s : str) : option A :=
  match m s with
  | Some x => Some x
  | None =>
      match s with
      | [] => None
      | _ :: r => re_search m r
      end
  end.

(** The first pattern at a position: the text [github.com], a slash or a
    colon, a group of one or more non-slashes, a slash, a group of one or
    more characters that are neither slash nor dot. Both groups are greedy
    and what follows them cannot be found inside them, so each is the
    longest run. *)
Definition match_github_at (s : str) : option (str * str) :=
  match strip_prefix (lit "github.com") s with
  | Some (c :: r) =>
      if (Ascii.eqb c "/" || Ascii.eqb c ":")%bool then
        let owner := take_while not_slash r in
        match owner, skipn (length owner) r with
        | _ :: _, _ :: r2 =>
            let repo := take_while not_slash_dot r2 in
            match repo with
            | _ :: _ => Some (owner, repo)
            | [] => None
            end
        | _, _ => None
        end
      else None
  | _ => None
  end.

(** The second pattern at a position: one or more non-slashes, a slash,
    one or more non-slashes, the end of the text. *)
Definition match_short_at (s : str) : option (str * str) :=
  let owner := take_while not_slash s in
  match owner, skipn (length owner) s with
  | _ :: _, _ :: r2 =>
      let repo := take_while not_slash r2 in
      match repo, skipn (length repo) r2 with
      | _ :: _, [] => Some (owner, repo)
      | _, _ => None
      end
  | _, _ => None
  end.

(** [parse_github_url(url)]. *)
Definition parse_github_url (url : str) : result (str * str) :=
  match re_search match_github_at url with
  | Some (owner, repo) => Ok (owner, replace (lit ".git") [] repo)
  | None =>
      match re_search match_short_at url with
      | Some (owner, repo) => Ok (owner, replace (lit ".git") [] repo)
      | None => Raise ValueError
      end
  end.

Lemma take_while_all (f : ascii -> bool) (a b : str) :
  Forall (fun c => f c = true) a ->
  take_while f b = [] ->
  take_while f (a ++ b) = a.
Proof.
  intros Ha Hb. induction Ha as [|c a Hc Ha IH]; [exact Hb|].
  cbn. now rewrite Hc, IH.
Qed.

Lemma replace_no_first_char (c : ascii) (old new s : str) :
  Forall (fun x => x <> c) s -> replace (c :: old) new s = s.
Proof.
  unfold replace. intros H. induction H as [|x s Hx Hs IH]; [reflexivity|].
  rewrite re_sub_cons. unfold startswith at 1. cbn [strip_prefix].
  destruct (Ascii.eqb_spec c x); [congruence|]. now rewrite IH.
Qed.

Lemma not_slash_dot_no_dot (s : str) :
  Forall (fun c => not_slash_dot c = true) s -> Forall (fun x => x <> "."%char) s.
Proof.
  intros H. induction H as [|c s Hc Hs IH]; constructor; [|assumption].
  intros ->. discriminate.
Qed.

Lemma strip_prefix_app (p r : str) : strip_prefix p (p ++ r) = Some r.
Proof.
  induction p as [|c p IH]; [reflexivity|].
  cbn [app strip_prefix]. now rewrite Ascii.eqb_refl.
Qed.

Lemma skipn_length_app {A : Type} (a b : list A) : skipn (length a) (a ++ b) = b.
Proof. induction a as [|x a IH]; [reflexivity|exact IH]. Qed.

Lemma re_search_next {A : Type} (m : str -> option A) (c : ascii) (r : str) :
  m (c :: r) = None -> re_search m (c :: r) = re_search m r.
Proof. intros H. cbn [re_search]. now rewrite H. Qed.

Lemma re_search_here {A : Type} (m : str -> option A) (s : str) (x : A) :
  m s = Some x -> re_search m s = Some x.
Proof. intros H. destruct s; cbn [re_search]; now rewrite H. Qed.

Lemma match_github_at_other (c : ascii) (r : str) :
  c <> "g"%char -> match_github_at (c :: r) = None.
Proof.
  intros Hc. unfold match_github_at. cbn [lit list_ascii_of_string strip_prefix].
  destruct (Ascii.eqb_spec "g"%char c); [congruence|reflexivity].
Qed.

Lemma match_github_at_here (owner repo rest : str) :
  owner <> [] -> Forall (fun c => not_slash c = true) owner ->
  repo <> [] -> Forall (fun c => not_slash_dot c = true) repo ->
  take_while not_slash_dot rest = [] ->
  match_github_at (lit "github.com" ++ "/"%char :: owner ++ "/"%char :: repo ++ rest)
  = Some (owner, repo).
Proof.
  intros Ho Hos Hr Hrs Hrest. unfold match_github_at.
  rewrite strip_prefix_app. cbv beta iota zeta.
  replace (Ascii.eqb "/" "/" || Ascii.eqb "/" ":")%bool with true by reflexivity.
  cbv beta iota.
  rewrite (take_while_all not_slash owner ("/"%char :: repo ++ rest) Hos eq_refl).
  destruct owner as [|o os]; [congruence|]. cbv beta iota.
  rewrite skipn_length_app. cbv beta iota.
  rewrite (take_while_all not_slash_dot repo rest Hrs Hrest).
  destruct repo; [congruence|]. reflexivity.
Qed.

(** A URL [https://github.com/OWNER/REPO] followed by nothing, a slash or
    a dot (as in [.git]) parses to [(OWNER, REPO)]: the repository name
    ends at the first dot. *)
Theorem parse_github_url_https (owner repo rest : str) :
  owner <> [] -> Forall (fun c => not_slash c = true) owner ->
  repo <> [] -> Forall (fun c => not_slash_dot c = true) repo ->
  take_while not_slash_dot rest = [] ->
  parse_github_url (lit "https://github.com/" ++ owner ++ lit "/" ++ repo ++ rest)
  = Ok (owner, repo).
Proof.
  intros Ho Hos Hr Hrs Hrest. unfold parse_github_url.
  assert (Hm : re_search match_github_at
                 (lit "https://github.com/" ++ owner ++ lit "/" ++ repo ++ rest)
               = Some (owner, repo)).
  { change (lit "https://github.com/" ++ owner ++ lit "/" ++ repo ++ rest)
      with ("h" :: "t" :: "t" :: "p" :: "s" :: ":" :: "/" :: "/"
            :: lit "github.com" ++ "/" :: owner ++ "/" :: repo ++ rest)%char.
    do 8 (rewrite re_search_next by (apply match_github_at_other; discriminate)).
    apply re_search_here. now apply match_github_at_here. }
  rewrite Hm. f_equal. f_equal.
  apply replace_no_first_char. now apply not_slash_dot_no_dot.
Qed.

Lemma parse_github_url_https_witness :
  parse_github_url (lit "https://github.com/" ++ lit "jamesmacfie" ++ lit "/"
                    ++ lit "shlurp" ++ lit ".git")
  = Ok (lit "jamesmacfie", lit "shlurp").
Proof.
  apply (parse_github_url_https (lit "jamesmacfie") (lit "shlurp") (lit ".git")).
  - discriminate.
  - repeat constructor.
  - discriminate.
  - repeat constructor.
  - reflexivity.
Defined.

Lemma take_while_Forall (f : ascii -> bool) (s : str) :
  Forall (fun c => f c = true) s -> take_while f s = s.
Proof.
  intros H. rewrite <- (app_nil_r s) at 1.
  rewrite (take_while_all f s [] H eq_refl). reflexivity.
Qed.

Lemma match_short_at_here (owner repo : str) :
  owner <> [] -> Forall (fun c => not_slash c = true) owner ->
  repo <> [] -> Forall (fun c => not_slash c = true) repo ->
  match_short_at (owner ++ "/"%char :: repo) = Some (owner, repo).
Proof.
  intros Ho Hos Hr Hrs. unfold match_short_at. cbv zeta.
  rewrite (take_while_all not_slash owner ("/"%char :: repo) Hos eq_refl).
  destruct owner as [|o os]; [congruence|]. cbv beta iota.
  rewrite skipn_length_app. cbv beta iota.
  rewrite (take_while_Forall not_slash repo Hrs).
  destruct repo as [|r rs]; [congruence|]. cbv beta iota.
  now rewrite skipn_all.
Qed.

Lemma no_github_no_match (s : str) :
  contains (lit "github.com") s = false -> re_search match_github_at s = None.
Proof.
  induction s as [|c r IH]; intros H.
  - reflexivity.
  - cbn [contains] in H. apply orb_false_elim in H. destruct H as [Hhere Hrest].
    rewrite re_search_next; [now apply IH|].
    unfold match_github_at. unfold startswith in Hhere.
    destruct (strip_prefix (lit "github.com") (c :: r)); [discriminate|reflexivity].
Qed.

(** The short form [OWNER/REPO] (no [github.com] in it) parses to the
    owner and the repository name with every [.git] in it removed. *)
Theorem parse_github_url_short (owner repo : str) :
  owner <> [] -> Forall (fun c => not_slash c = true) owner ->
  repo <> [] -> Forall (fun c => not_slash c = true) repo ->
  contains (lit "github.com") (owner ++ lit "/" ++ repo) = false ->
  parse_github_url (owner ++ lit "/" ++ repo)
  = Ok (owner, replace (lit ".git") [] repo).
Proof.
  intros Ho Hos Hr Hrs Hno. unfold parse_github_url.
  rewrite (no_github_no_match _ Hno).
  rewrite (re_search_here match_short_at _ (owner, repo)); [reflexivity|].
  now apply match_short_at_here.
Qed.

Lemma parse_github_url_short_witness :
  parse_github_url (lit "octo-org" ++ lit "/" ++ lit "site.github.io")
  = Ok (lit "octo-org", lit "sitehub.io").
Proof.
  rewrite (parse_github_url_short (lit "octo-org") (lit "site.github.io")).
  - reflexivity.
  - discriminate.
  - repeat constructor.
  - discriminate.
  - repeat constructor.
  - reflexivity.
Defined.

Lemma Forall_suffix {A : Type} (P : A -> Prop) (p s : list A) :
  Forall P (p ++ s) -> Forall P s.
Proof. intros H. apply Forall_app in H. apply H. Qed.

Lemma match_github_at_no_slash (s : str) :
  Forall (fun c => not_slash c = true) s -> match_github_at s = None.
Proof.
  intros H. unfold match_github_at.
  destruct (strip_prefix (lit "github.com") s) as [[|c r]|] eqn:E; try reflexivity.
  apply strip_prefix_Some in E. subst s.
  apply Forall_suffix in H. inversion H as [|c' r' Hc Hr]; subst.
  destruct (Ascii.eqb c "/" || Ascii.eqb c ":")%bool; [|reflexivity].
  cbv zeta. rewrite (take_while_Forall not_slash r Hr).
  destruct r as [|x r]; [reflexivity|]. now rewrite skipn_all.
Qed.

Lemma match_short_at_no_slash (s : str) :
  Forall (fun c => not_slash c = true) s -> match_short_at s = None.
Proof.
  intros H. unfold match_short_at. cbv zeta.
  rewrite (take_while_Forall not_slash s H).
  destruct s as [|x s]; [reflexivity|]. now rewrite skipn_all.
Qed.

Lemma re_search_no_slash {A : Type} (m : str -> option A) (s : str) :
  (forall t, Forall (fun c => not_slash c = true) t -> m t = None) ->
  Forall (fun c => not_slash c = true) s -> re_search m s = None.
Proof.
  intros Hm H. induction H as [|c r Hc Hr IH].
  - cbn. now rewrite (Hm [] (Forall_nil _)).
  - rewrite re_search_next; [exact IH|]. apply Hm. now constructor.
Qed.

(** A text without any slash is refused with [ValueError]. *)
Theorem parse_github_url_no_slash (url : str) :
  Forall (fun c => not_slash c = true) url ->
  parse_github_url url = Raise ValueError.
Proof.
  intros H. unfold parse_github_url.
  rewrite (re_search_no_slash match_github_at url match_github_at_no_slash H).
  now rewrite (re_search_no_slash match_short_at url match_short_at_no_slash H).
Qed.

Lemma parse_github_url_no_slash_witness :
  parse_github_url (lit "github.com:shlurp") = Raise ValueError.
Proof. apply parse_github_url_no_slash. repeat constructor. Defined.

(** ** [get_repo_filename] and the label of [summarize_repository] *)

Definition not_underscore (c : ascii) : bool := negb (Ascii.eqb c "_").

(** The [repo_info] that [summarize_repository] derives from the name:
    [repo_name.split('_', 1)] when the name has an underscore. *)
Definition repo_info_of_name (repo_name : str) : str :=
  if existsb (Ascii.eqb "_"%char) repo_name then
    let owner := take_while not_underscore repo_name in
    let repo := skipn (S (length owner)) repo_name in
    lit " for " ++ owner ++ lit "/" ++ repo
  else lit " for " ++ repo_name.

Lemma existsb_underscore_app (a rest : str) :
  existsb (Ascii.eqb "_"%char) (a ++ "_"%char :: rest) = true.
Proof.
  rewrite existsb_app. cbn [existsb]. rewrite Ascii.eqb_refl.
  now rewrite orb_true_r.
Qed.

(** The label is cut at the first underscore of the saved name: it gives
    back [OWNER/REPO] from [get_repo_filename(OWNER, REPO)] when the owner
    has no underscore, whatever the repository name; an owner [A_B] is
    read as owner [A] of repository [B_REPO]. *)
Theorem repo_info_of_filename (a b repo : str) :
  Forall (fun c => not_underscore c = true) a ->
  repo_info_of_name (get_repo_filename a repo [])
  = lit " for " ++ a ++ lit "/" ++ repo
  /\ repo_info_of_name (get_repo_filename (a ++ lit "_" ++ b) repo [])
     = lit " for " ++ a ++ lit "/" ++ b ++ lit "_" ++ repo.
Proof.
  intros Ha.
  assert (Hcut : forall rest,
             repo_info_of_name (a ++ "_"%char :: rest)
             = lit " for " ++ a ++ lit "/" ++ rest).
  { intros rest. unfold repo_info_of_name.
    rewrite existsb_underscore_app. cbv zeta.
    rewrite (take_while_all not_underscore a ("_"%char :: rest) Ha eq_refl).
    change (skipn (S (length a)) (a ++ "_"%char :: rest))
      with (skipn (S (length a)) (a ++ ["_"%char] ++ rest)).
    replace (S (length a)) with (length (a ++ ["_"%char]))
      by (rewrite length_app; cbn; lia).
    now rewrite (app_assoc a ["_"%char] rest), skipn_length_app. }
  split.
  - exact (Hcut repo).
  - unfold get_repo_filename. cbn [truthy].
    rewrite <- app_assoc. exact (Hcut (b ++ lit "_" ++ repo)).
Qed.

Lemma repo_info_of_filename_witness :
  repo_info_of_name (get_repo_filename (lit "my") (lit "site") [])
  = lit " for my/site"
  /\ repo_info_of_name (get_repo_filename (lit "my" ++ lit "_" ++ lit "org") (lit "site") [])
     = lit " for my/org_site".
Proof.
  apply (repo_info_of_filename (lit "my") (lit "org") (lit "site")).
  repeat constructor.
Defined.

(** ** Group sizes of [split_into_chunks] *)

(** Every group but the last has exactly [k] items; the last has between
    1 and [k]. *)
Fixpoint full_then_last {A : Type} (k : Z) (groups : list (list A)) : Prop :=
  match groups with
  | [] => True
  | [g] => 0 < len g <= k
  | g :: rest => len g = k /\ full_then_last k rest
  end.

Lemma range_up_nonempty (fuel : nat) (i stop step : Z) :
  range_up fuel i stop step <> [] -> i < stop.
Proof.
  destruct fuel as [|f]; cbn [range_up]; [congruence|].
  destruct (Z.ltb_spec i stop); [trivial|congruence].
Qed.

Lemma range_up_full_then_last {A : Type} (items : list A) (k : Z) :
  0 < k ->
  forall (fuel : nat) (i : Z),
    0 <= i ->
    full_then_last k
      (map (fun j => slice items j (j + k)) (range_up fuel i (len items) k)).
Proof.
  intros Hk fuel. induction fuel as [|f IH]; intros i Hi; [exact I|].
  cbn [range_up]. destruct (Z.ltb_spec i (len items)) as [Hlt|Hge]; [|exact I].
  cbn [map]. specialize (IH (i + k) ltac:(lia)).
  assert (Hlen : len (slice items i (i + k)) = Z.min k (len items - i)).
  { rewrite slice_nonneg by lia. unfold len in *.
    rewrite length_firstn, length_skipn. lia. }
  destruct (range_up f (i + k) (len items) k) as [|j rest] eqn:E.
  - cbn. rewrite Hlen. lia.
  - assert (Hnext : i + k < len items).
    { apply (range_up_nonempty f _ _ k). rewrite E. discriminate. }
    cbn [map] in *. cbn [full_then_last]. split; [|exact IH].
    rewrite Hlen. lia.
Qed.

(** For a positive chunk size every group but the last is full and no
    group is empty; no items give no group. *)
Theorem split_into_chunks_group_sizes {A : Type} (items : list A) (k : Z) :
  0 < k ->
  exists groups,
    split_into_chunks items k = Ok groups
    /\ full_then_last k groups
    /\ Forall (fun g => g <> []) groups
    /\ (items = [] -> groups = []).
Proof.
  intros Hk. unfold split_into_chunks, py_range.
  destruct (Z.eqb_spec k 0); [lia|].
  destruct (Z.ltb_spec 0 k); [|lia].
  eexists. split; [reflexivity|].
  pose proof (range_up_full_then_last items k Hk
                (Z.to_nat (len items - 0)) 0 ltac:(lia)) as Hfull.
  split; [exact Hfull|]. split.
  - revert Hfull.
    generalize (map (fun i => slice items i (i + k))
                  (range_up (Z.to_nat (len items - 0)) 0 (len items) k)).
    intros gs. induction gs as [|g [|g' rest] IH]; intros Hgs.
    + constructor.
    + constructor; [|constructor]. cbn in Hgs. intros ->. cbn in Hgs. lia.
    + destruct Hgs as [Hg Hrest]. constructor; [|now apply IH].
      intros ->. cbn in Hg. lia.
  - intros ->. reflexivity.
Qed.

Lemma split_into_chunks_group_sizes_witness :
  exists groups,
    split_into_chunks [1; 2; 3; 4; 5; 6; 7] 3 = Ok groups
    /\ full_then_last 3 groups
    /\ Forall (fun g => g <> []) groups
    /\ ([1; 2; 3; 4; 5; 6; 7] = [] -> groups = []).
Proof. apply (split_into_chunks_group_sizes [1; 2; 3; 4; 5; 6; 7] 3). lia. Defined.

(** ** What [clean_markdown_content] leaves alone *)

Definition visible (s : str) : str := filter (fun c => negb (is_space c)) s.

Lemma visible_app (a b : str) : visible (a ++ b) = visible a ++ visible b.
Proof. apply filter_app. Qed.

Lemma visible_spaces (s : str) :
  Forall (fun c => is_space c = true) s -> visible s = [].
Proof.
  intros H. induction H as [|c s Hc Hs IH]; [reflexivity|].
  cbn. now rewrite Hc.
Qed.

Lemma take_while_nl_spaces (s : str) :
  Forall (fun c => is_space c = true) (take_while (Ascii.eqb NL) s).
Proof.
  induction s as [|c r IH]; [constructor|]. cbn [take_while].
  destruct (Ascii.eqb_spec NL c); [|constructor].
  subst c. constructor; [reflexivity|assumption].
Qed.

Lemma visible_re_sub_newlines3 (s : str) :
  visible (re_sub newlines3 s) = visible s.
Proof.
  remember (length s) as n eqn:Hn.
  revert s Hn. induction n as [n IH] using lt_wf_ind. intros s Hn.
  destruct s as [|c r]; [reflexivity|].
  rewrite re_sub_cons.
  destruct (Nat.lt_ge_cases (nl_run (c :: r)) 3) as [Hlt|Hge].
  - rewrite (newlines3_None _ Hlt).
    change (c :: re_sub newlines3 r) with ([c] ++ re_sub newlines3 r).
    change (c :: r) with ([c] ++ r). rewrite !visible_app.
    f_equal. apply (IH (length r)); [cbn in Hn; lia|reflexivity].
  - rewrite (newlines3_Some _ Hge).
    assert (Hskip : skipn (Nat.pred (nl_run (c :: r))) r
                    = skipn (nl_run (c :: r)) (c :: r)).
    { destruct (nl_run (c :: r)); [lia|reflexivity]. }
    rewrite Hskip, visible_app.
    rewrite (IH (length (skipn (nl_run (c :: r)) (c :: r))));
      [| rewrite length_skipn; cbn [length] in *; lia | reflexivity].
    rewrite <- (firstn_skipn (nl_run (c :: r)) (c :: r)) at 3.
    rewrite visible_app. f_equal.
    unfold nl_run. rewrite take_while_firstn.
    now rewrite (visible_spaces _ (take_while_nl_spaces (c :: r))).
Qed.

Lemma lstrip_spaces (s : str) :
  exists p, s = p ++ lstrip s /\ Forall (fun c => is_space c = true) p.
Proof.
  induction s as [|c r (p & IH & Hp)]; [exists []; split; [reflexivity|constructor]|].
  cbn. destruct (is_space c) eqn:Hc.
  - exists (c :: p). split; [cbn; now f_equal|now constructor].
  - exists []. split; [reflexivity|constructor].
Qed.

Lemma rstrip_spaces (s : str) :
  exists q, s = rstrip s ++ q /\ Forall (fun c => is_space c = true) q.
Proof.
  induction s as [|c r (q & IH & Hq)]; [exists []; split; [reflexivity|constructor]|].
  cbn. destruct (rstrip r) as [|x y] eqn:E.
  - cbn in IH. subst q. destruct (is_space c) eqn:Hc.
    + exists (c :: r). split; [reflexivity|now constructor].
    + exists r. split; [reflexivity|assumption].
  - exists q. split; [cbn; f_equal; exact IH|assumption].
Qed.

Lemma visible_strip (s : str) : visible (strip s) = visible s.
Proof.
  destruct (lstrip_spaces s) as (p & Hp & Hps).
  destruct (rstrip_spaces (lstrip s)) as (q & Hq & Hqs).
  unfold strip. rewrite Hp at 2. rewrite Hq at 2.
  rewrite !visible_app, (visible_spaces p Hps), (visible_spaces q Hqs).
  now rewrite app_nil_r.
Qed.

(** [clean_markdown_content] only removes whitespace: the other
    characters of the text are kept, all of them and in order; and the
    substitution meant for code-fence openers changes no text at all. *)
Theorem clean_markdown_content_keeps_text (s : str) :
  visible (clean_markdown_content s) = visible s
  /\ re_sub fence_opener s = s
  /\ len (clean_markdown_content s) <= len s.
Proof.
  assert (Hvis : visible (clean_markdown_content s) = visible s).
  { rewrite clean_markdown_content_eq, visible_strip.
    apply visible_re_sub_newlines3. }
  split; [exact Hvis|]. split; [apply re_sub_fence_opener_id|].
  rewrite clean_markdown_content_eq.
  destruct (strip_infix (re_sub newlines3 s)) as (p & q & E).
  assert (H1 : len (strip (re_sub newlines3 s)) <= len (re_sub newlines3 s)).
  { rewrite E at 2. rewrite !len_app.
    pose proof (len_nonneg p). pose proof (len_nonneg q). lia. }
  assert (H2 : forall t, len (re_sub newlines3 t) <= len t).
  { clear. intros t. remember (length t) as n eqn:Hn.
    revert t Hn. induction n as [n IH] using lt_wf_ind. intros t Hn.
    destruct t as [|c r]; [reflexivity|].
    rewrite re_sub_cons.
    destruct (Nat.lt_ge_cases (nl_run (c :: r)) 3) as [Hlt|Hge].
    - rewrite (newlines3_None _ Hlt). rewrite !len_cons.
      specialize (IH (length r) ltac:(cbn in Hn; lia) r eq_refl). lia.
    - rewrite (newlines3_Some _ Hge).
      assert (Hskip : skipn (Nat.pred (nl_run (c :: r))) r
                      = skipn (nl_run (c :: r)) (c :: r)).
      { destruct (nl_run (c :: r)); [lia|reflexivity]. }
      rewrite Hskip. cbn [app]. rewrite !len_cons.
      assert (Hrun : (nl_run (c :: r) <= length (c :: r))%nat).
      { unfold nl_run. rewrite <- take_while_firstn. rewrite length_firstn. lia. }
      specialize (IH (length (skipn (nl_run (c :: r)) (c :: r)))
                    ltac:(rewrite length_skipn; cbn [length] in *; lia)
                    (skipn (nl_run (c :: r)) (c :: r)) eq_refl).
      unfold len in *. rewrite length_skipn in IH. cbn [length] in *. lia. }
  specialize (H2 s). lia.
Qed.

(** ** The shape of a formatted timestamp *)

(** [YYYY-MM-DD HH:MM]: sixteen characters, digits around the fixed
    punctuation. *)
Definition is_Ymd_HM (s : str) : bool :=
  match s with
  | [y1; y2; y3; y4; p1; m1; m2; p2; d1; d2; p3; h1; h2; p4; n1; n2] =>
      (forallb is_digit [y1; y2; y3; y4; m1; m2; d1; d2; h1; h2; n1; n2]
       && Ascii.eqb p1 "-" && Ascii.eqb p2 "-" && Ascii.eqb p3 " "
       && Ascii.eqb p4 ":")%bool
  | _ => false
  end.

(** The fields of a [datetime] object of four-digit year. *)
Definition calendar_range (dt : datetime) : Prop :=
  1000 <= dt_year dt <= 9999 /\ 1 <= dt_month dt <= 12 /\ 1 <= dt_day dt <= 31
  /\ 0 <= dt_hour dt <= 23 /\ 0 <= dt_minute dt <= 59.

Definition two_digits (s : str) : bool :=
  match s with
  | [a; b] => (is_digit a && is_digit b)%bool
  | _ => false
  end.

Definition four_digits (s : str) : bool :=
  match s with
  | [a; b; c; d] => (is_digit a && is_digit b && is_digit c && is_digit d)%bool
  | _ => false
  end.

Lemma zero_pad_2_table :
  forallb (fun n => two_digits (zero_pad 2 (Z.of_nat n))) (seq 0 100) = true.
Proof. vm_compute. reflexivity. Qed.

Definition digit_value (c : ascii) : Z := Z.of_nat (nat_of_ascii c) - 48.

(** The number written by a string of decimal digits. *)
Definition digits_value (s : str) : Z :=
  fold_left (fun acc c => 10 * acc + digit_value c) s 0.

(** [s] is a non-empty string of digits that writes [n]. *)
Definition digits_of (n : Z) (s : str) : bool :=
  (truthy s && forallb is_digit s && (digits_value s =? n))%bool.

(** [str(n)] for a year: its digits, four of them from 1000 on. *)
Definition year_digits (n : Z) : bool :=
  (digits_of n (str_of_Z n)
   && (if 1000 <=? n then four_digits (str_of_Z n) else true))%bool.

Lemma year_table :
  forallb (fun n => year_digits (Z.of_nat n)) (seq 0 (Z.to_nat 10000)) = true.
Proof. vm_compute. reflexivity. Qed.

Lemma year_digits_ok (n : Z) : 0 <= n <= 9999 -> year_digits n = true.
Proof.
  intros Hn. pose proof year_table as T. rewrite forallb_forall in T.
  specialize (T (Z.to_nat n)). rewrite Z2Nat.id in T by lia.
  apply T. apply in_seq. lia.
Qed.

Lemma zero_pad_2_digits (n : Z) : 0 <= n <= 99 -> two_digits (zero_pad 2 n) = true.
Proof.
  intros Hn. pose proof zero_pad_2_table as T. rewrite forallb_forall in T.
  specialize (T (Z.to_nat n)). rewrite Z2Nat.id in T by lia.
  apply T. apply in_seq. lia.
Qed.

Lemma year_4_digits (n : Z) : 1000 <= n <= 9999 -> four_digits (str_of_Z n) = true.
Proof.
  intros Hn. pose proof (year_digits_ok n ltac:(lia)) as H.
  unfold year_digits in H. apply andb_prop in H. destruct H as [_ H].
  destruct (Z.leb_spec 1000 n); [exact H|lia].
Qed.

Lemma strftime_shape (dt : datetime) :
  calendar_range dt -> is_Ymd_HM (strftime_Ymd_HM dt) = true.
Proof.
  intros (Hy & Hm & Hd & Hh & Hn). unfold strftime_Ymd_HM.
  pose proof (year_4_digits (dt_year dt) ltac:(lia)) as Py.
  pose proof (zero_pad_2_digits (dt_month dt) ltac:(lia)) as Pm.
  pose proof (zero_pad_2_digits (dt_day dt) ltac:(lia)) as Pd.
  pose proof (zero_pad_2_digits (dt_hour dt) ltac:(lia)) as Ph.
  pose proof (zero_pad_2_digits (dt_minute dt) ltac:(lia)) as Pn.
  destruct (str_of_Z (dt_year dt)) as [|y1 [|y2 [|y3 [|y4 [|]]]]]; try discriminate.
  destruct (zero_pad 2 (dt_month dt)) as [|m1 [|m2 [|]]]; try discriminate.
  destruct (zero_pad 2 (dt_day dt)) as [|d1 [|d2 [|]]]; try discriminate.
  destruct (zero_pad 2 (dt_hour dt)) as [|h1 [|h2 [|]]]; try discriminate.
  destruct (zero_pad 2 (dt_minute dt)) as [|n1 [|n2 [|]]]; try discriminate.
  cbn [two_digits four_digits] in *.
  repeat match goal with
         | H : (_ && _)%bool = true |- _ => apply andb_prop in H; destruct H
         end.
  cbn [lit list_ascii_of_string app is_Ymd_HM forallb].
  repeat match goal with
         | H : is_digit _ = true |- _ => rewrite H; clear H
         end.
  reflexivity.
Qed.

(** A timestamp that parses to a date of four-digit year is shown as
    sixteen characters [YYYY-MM-DD HH:MM]. *)
Theorem format_datetime_shape
  (fromisoformat : str -> result datetime) (dt_str : str) (dt : datetime) :
  fromisoformat (replace (lit "Z") (lit "+00:00") dt_str) = Ok dt ->
  calendar_range dt ->
  exists out,
    format_datetime fromisoformat dt_str = Ok out
    /\ is_Ymd_HM out = true
    /\ len out = 16.
Proof.
  intros Hparse Hrange. unfold format_datetime. rewrite Hparse.
  exists (strftime_Ymd_HM dt). split; [reflexivity|].
  pose proof (strftime_shape dt Hrange) as Hshape.
  split; [exact Hshape|].
  unfold is_Ymd_HM in Hshape.
  destruct (strftime_Ymd_HM dt)
    as [|? [|? [|? [|? [|? [|? [|? [|? [|? [|? [|? [|? [|? [|? [|? [|? [|]]]]]]]]]]]]]]]]];
    try discriminate.
  reflexivity.
Qed.

(** A parser that knows one timestamp. *)
Definition fromisoformat_one : str -> result datetime :=
  fun s =>
    if list_eq_dec ascii_dec s (lit "2024-05-01T10:20:30+00:00")
    then Ok (mk_datetime 2024 5 1 10 20)
    else Raise ValueError.

Lemma format_datetime_shape_witness :
  exists out,
    format_datetime fromisoformat_one (lit "2024-05-01T10:20:30Z") = Ok out
    /\ is_Ymd_HM out = true
    /\ len out = 16.
Proof.
  apply (format_datetime_shape fromisoformat_one (lit "2024-05-01T10:20:30Z")
           (mk_datetime 2024 5 1 10 20)).
  - vm_compute. reflexivity.
  - unfold calendar_range. cbn. lia.
Defined.

(** ** [format_datetime], read back *)












(* ================================================================== *)
(** * More of llm_summarizer.py *)

(** ** Where the document is cut *)

Lemma re_split_tail_nonempty (ahead : str -> bool) (s : str) :
  re_split_tail ahead s <> [].
Proof.
  destruct s as [|c r]; cbn [re_split_tail]; [discriminate|].
  destruct (re_split_tail ahead r); [discriminate|].
  destruct (ahead r); discriminate.
Qed.

Lemma re_split_tail_boundary (ahead : str -> bool) (s : str) :
  forall before p after,
    re_split_tail ahead s = before ++ p :: after ->
    before <> [] ->
    ahead (concat (p :: after)) = true.
Proof.
  induction s as [|c r IH]; intros before p after E Hb.
  - cbn in E. destruct before as [|b [|b' bs]]; [congruence|discriminate|discriminate].
  - cbn [re_split_tail] in E.
    destruct (re_split_tail ahead r) as [|p0 ps0] eqn:Er;
      [now apply re_split_tail_nonempty in Er|].
    destruct (ahead r) eqn:Ha.
    + destruct before as [|b bs]; [congruence|].
      cbn [app] in E. inversion E as [[Eb Erest]]. clear E.
      destruct bs as [|b' bs'].
      * cbn [app] in Erest. rewrite <- Erest.
        pose proof (re_split_tail_concat ahead r) as Hc. rewrite Er in Hc.
        now rewrite Hc.
      * apply (IH (b' :: bs') p after); [exact Erest|discriminate].
    + destruct before as [|b bs]; [congruence|].
      cbn [app] in E. inversion E as [[Eb Erest]]. clear E.
      apply (IH (p0 :: bs) p after); [|discriminate].
      cbn [app]. now rewrite Erest.
Qed.

Lemma re_split_tail_cuts (ahead : str -> bool) (s : str) :
  forall a t,
    s = a ++ t -> a <> [] -> ahead t = true ->
    exists before after,
      re_split_tail ahead s = before ++ after
      /\ concat before = a /\ concat after = t /\ before <> [].
Proof.
  induction s as [|c r IH]; intros a t E Ha Ht.
  - destruct a; [congruence|discriminate].
  - destruct a as [|c' a']; [congruence|].
    cbn [app] in E. injection E as Ec Er. subst c'.
    cbn [re_split_tail].
    destruct (re_split_tail ahead r) as [|p0 ps0] eqn:Esplit;
      [now apply re_split_tail_nonempty in Esplit|].
    destruct a' as [|x a''].
    + cbn [app] in Er. subst t. rewrite Ht.
      exists [[c]], (p0 :: ps0). repeat split; try discriminate.
      rewrite <- Esplit. apply re_split_tail_concat.
    + destruct (IH (x :: a'') t Er ltac:(discriminate) Ht)
        as (before & after & Hsplit & Hbefore & Hafter & Hne).
      destruct before as [|b bs]; [congruence|].
      cbn [app] in Hsplit. inversion Hsplit as [[Ep Eps]]. subst b ps0.
      destruct (ahead r).
      * exists ([c] :: p0 :: bs), after. repeat split; try discriminate; auto.
        cbn [concat app]. cbn [concat] in Hbefore. now rewrite Hbefore.
      * exists ((c :: p0) :: bs), after. repeat split; try discriminate; auto.
        cbn [concat app]. cbn [concat] in Hbefore. now rewrite Hbefore.
Qed.

(** [re.split] cuts the document exactly at the positions where an issue
    header [## Issue #<digits>:] begins: what follows every boundary
    starts with a header, every header start after the first character is
    a boundary, and a header at the very start gives an empty first
    piece. *)
Theorem re_split_at_issue_headers (content : str) :
  (forall before p after,
      re_split issue_header_ahead content = before ++ p :: after ->
      before <> [] ->
      issue_header_ahead (concat (p :: after)) = true)
  /\ (forall a t,
        content = a ++ t -> a <> [] -> issue_header_ahead t = true ->
        exists before after,
          re_split issue_header_ahead content = before ++ after
          /\ concat before = a /\ concat after = t /\ before <> [])
  /\ (issue_header_ahead content = true ->
      exists rest, re_split issue_header_ahead content = [] :: rest).
Proof.
  split; [|split].
  - intros before p after E Hb. unfold re_split in E.
    destruct (issue_header_ahead content) eqn:Ha.
    + destruct before as [|b bs]; [congruence|].
      cbn [app] in E. inversion E as [[Eb Erest]]. clear E.
      destruct bs as [|b' bs'].
      * cbn [app] in Erest. rewrite <- Erest, re_split_tail_concat. exact Ha.
      * apply (re_split_tail_boundary issue_header_ahead content (b' :: bs') p after);
          [exact Erest|discriminate].
    + now apply (re_split_tail_boundary issue_header_ahead content before p after).
  - intros a t E Ha Ht.
    destruct (re_split_tail_cuts issue_header_ahead content a t E Ha Ht)
      as (before & after & Hs & Hb & Hafter & Hne).
    unfold re_split. destruct (issue_header_ahead content).
    + exists ([] :: before), after. rewrite Hs. repeat split; auto; discriminate.
    + exists before, after. repeat split; auto.
  - intros Ha. unfold re_split. rewrite Ha. eauto.
Qed.

Lemma re_split_at_issue_headers_witness :
  exists before after,
    re_split issue_header_ahead (lit "# Title " ++ lit "## Issue #12: x")
    = before ++ after
    /\ concat before = lit "# Title " /\ concat after = lit "## Issue #12: x"
    /\ before <> [].
Proof.
  apply (proj1 (proj2 (re_split_at_issue_headers
                         (lit "# Title " ++ lit "## Issue #12: x")))).
  - reflexivity.
  - discriminate.
  - reflexivity.
Defined.

(** ** The budget of a chunk *)

(** A group fits the budget by the packer's count, or is a single issue. *)
Definition within_budget (max_tokens : Z) (g : list str) : Prop :=
  total_estimate g <= max_tokens \/ exists i, g = [i].

(** No group could have taken the first issue of the next one. *)
Fixpoint greedy (max_tokens : Z) (groups : list (list str)) : Prop :=
  match groups with
  | [] => True
  | g :: rest =>
      match rest with
      | (i :: _) :: _ => max_tokens < total_estimate g + estimate_tokens i
      | _ => True
      end
      /\ greedy max_tokens rest
  end.

(** The chunk being filled, as a group. *)
Definition open_group (st : pack_state) : list (list str) :=
  if truthy (current_chunk st) then [current_chunk st] else [].

Record plan_inv (max_tokens : Z) (st : pack_state) (groups : list (list str))
       (seen : list str) : Prop := mk_plan_inv {
  plan_base : pack_inv max_tokens st groups seen;
  plan_budget : Forall (within_budget max_tokens) (groups ++ open_group st);
  plan_greedy : greedy max_tokens (groups ++ open_group st);
  plan_start : current_chunk st = [] -> groups = []
}.

Lemma greedy_close (max_tokens : Z) (groups : list (list str)) (g : list str)
      (i : str) :
  greedy max_tokens (groups ++ [g]) ->
  max_tokens < total_estimate g + estimate_tokens i ->
  greedy max_tokens ((groups ++ [g]) ++ [[i]]).
Proof.
  intros Hg Hi. induction groups as [|g0 rest IH].
  - cbn. auto.
  - cbn [app greedy] in *. destruct Hg as [Hadj Hrest]. split; [|now apply IH].
    destruct rest as [|g1 rest']; cbn [app] in *; exact Hadj.
Qed.

Lemma greedy_grow (max_tokens : Z) (groups : list (list str)) (g : list str)
      (i : str) :
  g <> [] ->
  greedy max_tokens (groups ++ [g]) ->
  greedy max_tokens (groups ++ [g ++ [i]]).
Proof.
  intros Hne Hg. induction groups as [|g0 rest IH].
  - cbn. auto.
  - cbn [app greedy] in *. destruct Hg as [Hadj Hrest]. split; [|now apply IH].
    destruct rest as [|g1 rest']; cbn [app] in *; [|exact Hadj].
    destruct g as [|x g']; [congruence|]. exact Hadj.
Qed.

Lemma pack_step_plan (max_tokens : Z) (st : pack_state) (groups : list (list str))
      (seen : list str) (issue : str) :
  plan_inv max_tokens st groups seen ->
  exists groups',
    plan_inv max_tokens (pack_step max_tokens st issue) groups' (seen ++ [issue]).
Proof.
  intros [[Hc Hs Hn Hz Hcur Hg] Hbud Hgre Hstart]. unfold open_group in *.
  destruct (closes_dec max_tokens st issue) as [Hcl|Hncl].
  - rewrite (pack_step_closes _ _ _ Hcl). destruct Hcl as [Hlt Hne].
    assert (Ht : truthy (current_chunk st) = true) by now apply truthy_true.
    rewrite Ht in *.
    exists (groups ++ [current_chunk st]).
    constructor; unfold open_group; cbn [current_chunk truthy].
    + constructor; cbn.
      * now rewrite map_app, Hc.
      * rewrite concat_app. cbn [concat]. now rewrite app_nil_r, Hs.
      * apply Forall_app. split; [assumption|]. now constructor.
      * lia.
      * intros i [<-|[]] _. reflexivity.
      * apply Forall_app. split; [assumption|]. now constructor.
    + apply Forall_app. split; [exact Hbud|].
      constructor; [|constructor]. right. now exists issue.
    + apply greedy_close; [exact Hgre|]. now rewrite <- Hz.
    + discriminate.
  - rewrite (pack_step_appends _ _ _ Hncl).
    exists groups. constructor; unfold open_group; cbn [current_chunk].
    + constructor; cbn; try assumption.
      * now rewrite app_assoc, Hs.
      * rewrite total_estimate_app. cbn [total_estimate]. lia.
      * destruct (current_chunk st) as [|x rest] eqn:Ecur.
        -- intros i [<-|[]] _. reflexivity.
        -- assert (Hle : current_size st + estimate_tokens issue <= max_tokens).
           { unfold closes in Hncl. rewrite Ecur in Hncl.
             destruct (Z.lt_ge_cases max_tokens
                         (current_size st + estimate_tokens issue)); [|lia].
             exfalso. apply Hncl. split; [assumption|discriminate]. }
           intros i Hi Hbig. exfalso.
           pose proof (estimate_tokens_nonneg issue).
           pose proof (total_estimate_nonneg (x :: rest)).
           apply in_app_or in Hi. destruct Hi as [Hi|[<-|[]]].
           ++ apply total_estimate_In in Hi. lia.
           ++ lia.
    + destruct (current_chunk st) as [|x rest] eqn:Ecur.
      * rewrite (Hstart eq_refl). cbn.
        constructor; [|constructor]. right. now exists issue.
      * cbn [truthy app] in *. cbn [truthy].
        apply Forall_app in Hbud. destruct Hbud as [Hbg _].
        apply Forall_app. split; [exact Hbg|].
        constructor; [|constructor]. left.
        change (x :: rest ++ [issue]) with ((x :: rest) ++ [issue]).
        rewrite total_estimate_app. cbn [total_estimate].
        cbn [total_estimate] in Hz.
        unfold closes in Hncl. rewrite Ecur in Hncl.
        destruct (Z.lt_ge_cases max_tokens (current_size st + estimate_tokens issue));
          [|lia].
        exfalso. apply Hncl. split; [assumption|discriminate].
    + destruct (current_chunk st) as [|x rest] eqn:Ecur.
      * rewrite (Hstart eq_refl). cbn. auto.
      * cbn [truthy app] in *. cbn [truthy].
        change (x :: rest ++ [issue]) with ((x :: rest) ++ [issue]).
        apply greedy_grow; [discriminate|exact Hgre].
    + intros E. destruct (current_chunk st); discriminate.
Qed.

Lemma pack_fold_plan (max_tokens : Z) (issues : list str) :
  forall st groups seen,
    plan_inv max_tokens st groups seen ->
    exists groups',
      plan_inv max_tokens (fold_left (pack_step max_tokens) issues st) groups'
               (seen ++ issues).
Proof.
  induction issues as [|i rest IH]; intros st groups seen Hinv.
  - exists groups. now rewrite app_nil_r.
  - cbn [fold_left].
    destruct (pack_step_plan max_tokens st groups seen i Hinv) as [g1 H1].
    destruct (IH _ _ _ H1) as [g2 H2].
    exists g2. now rewrite <- app_assoc in H2.
Qed.

Lemma estimate_join_bound (g : list str) :
  g <> [] ->
  estimate_tokens (join [NL] g) <= total_estimate g + len g - 1.
Proof.
  intros Hne. unfold estimate_tokens at 1.
  rewrite (len_join_nonempty [NL] g Hne). change (len [NL]) with 1.
  pose proof (estimate_rounding g) as [_ Hup].
  assert ((len (concat g) + 1 * (len g - 1)) / 4 < total_estimate g + len g);
    [|lia].
  apply Z.div_lt_upper_bound; lia.
Qed.

(** The plan of a document over budget is made of groups of whole blocks
    such that: the block estimates of a group sum to at most the budget
    unless the group is a single block; a group is closed only when the
    next block would not fit; and a chunk's own estimate can exceed the
    budget by at most one token per newline that joins its blocks. *)
Theorem chunk_content_budget (content : str) (max_tokens : Z) :
  max_tokens < estimate_tokens content ->
  exists groups,
    _chunk_content content max_tokens = map (join [NL]) groups
    /\ concat groups = issue_blocks content
    /\ Forall (within_budget max_tokens) groups
    /\ greedy max_tokens groups
    /\ Forall (fun g => estimate_tokens (join [NL] g) <= max_tokens + len g - 1
                        \/ exists i, g = [i]) groups.
Proof.
  intros Hover. unfold _chunk_content.
  destruct (Z.leb_spec (estimate_tokens content) max_tokens); [lia|].
  assert (Hinit : plan_inv max_tokens pack_init [] []).
  { constructor; [apply pack_init_inv|constructor|exact I|reflexivity]. }
  destruct (pack_fold_plan max_tokens (issue_blocks content) _ _ _ Hinit)
    as [groups [[Hc Hs Hn Hz Hcur Hg] Hbud Hgre Hstart]].
  cbn [app] in Hs. unfold open_group in *.
  set (st := fold_left (pack_step max_tokens) (issue_blocks content) pack_init) in *.
  exists (groups ++ (if truthy (current_chunk st) then [current_chunk st] else [])).
  assert (Hne : Forall (fun g => g <> [])
                  (groups ++ (if truthy (current_chunk st)
                              then [current_chunk st] else []))).
  { apply Forall_app. split; [assumption|].
    destruct (current_chunk st); cbn; constructor; [discriminate|constructor]. }
  split; [|split; [|split; [|split]]].
  - rewrite map_app, Hc. destruct (truthy (current_chunk st)); cbn [map];
      [reflexivity|now rewrite app_nil_r].
  - rewrite concat_app, <- Hs. f_equal.
    destruct (current_chunk st); cbn; [reflexivity|now rewrite app_nil_r].
  - exact Hbud.
  - exact Hgre.
  - rewrite Forall_forall in *. intros g Hin.
    destruct (Hbud g Hin) as [Hfit|Hone]; [left|now right].
    pose proof (estimate_join_bound g (Hne g Hin)). lia.
Qed.

(** Three issues of three tokens each. *)
Definition doc_three_small : str :=
  lit "## Issue #1" ++ lit ":## Issue #2" ++ lit ":## Issue #3:".

Lemma chunk_content_budget_witness :
  exists groups,
    _chunk_content doc_three_small 7 = map (join [NL]) groups
    /\ concat groups = issue_blocks doc_three_small
    /\ Forall (within_budget 7) groups
    /\ greedy 7 groups
    /\ Forall (fun g => estimate_tokens (join [NL] g) <= 7 + len g - 1
                        \/ exists i, g = [i]) groups.
Proof.
  apply (chunk_content_budget doc_three_small 7). vm_compute. reflexivity.
Defined.

(** ** No blank chunk *)

Lemma truthy_strip_visible (s : str) :
  truthy (strip s) = true <-> visible s <> [].
Proof.
  rewrite <- (visible_strip s). split.
  - intros H Hv. destruct (strip s) as [|c r] eqn:E; [discriminate|].
    destruct (strip_stripped s) as [Hhead _]. rewrite E in Hhead.
    specialize (Hhead c r eq_refl). cbn in Hv. rewrite Hhead in Hv. discriminate.
  - intros H. destruct (strip s); [now contradiction H|reflexivity].
Qed.

Lemma visible_join_nonblank (g : list str) :
  g <> [] ->
  Forall (fun b => visible b <> []) g ->
  visible (join [NL] g) <> [].
Proof.
  intros Hne Hall. destruct g as [|x [|y rest]]; [congruence| |].
  - cbn [join]. now inversion Hall.
  - change (join [NL] (x :: y :: rest)) with (x ++ [NL] ++ join [NL] (y :: rest)).
    rewrite visible_app. inversion Hall as [|? ? Hx _]; subst.
    destruct (visible x); [congruence|discriminate].
Qed.

(** No chunk of a plan over budget is empty or blank, and the plan has at
    most as many chunks as the document has blocks. *)
Theorem chunk_content_no_blank_chunk (content : str) (max_tokens : Z) :
  max_tokens < estimate_tokens content ->
  Forall (fun chunk => truthy (strip chunk) = true) (_chunk_content content max_tokens)
  /\ len (_chunk_content content max_tokens) <= len (issue_blocks content).
Proof.
  intros Hover.
  destruct (chunk_content_groups content max_tokens Hover)
    as (groups & Hchunks & Hcat & Hne & _).
  assert (Hblocks : Forall (fun b => visible b <> []) (issue_blocks content)).
  { unfold issue_blocks. apply Forall_forall. intros b Hb.
    apply filter_In in Hb. now apply truthy_strip_visible. }
  rewrite <- Hcat in Hblocks. rewrite Hchunks. split.
  - apply Forall_forall. intros chunk Hin.
    apply in_map_iff in Hin. destruct Hin as (g & <- & Hg).
    apply truthy_strip_visible. apply visible_join_nonblank.
    + rewrite Forall_forall in Hne. now apply Hne.
    + apply Forall_forall. intros b Hb. rewrite Forall_forall in Hblocks.
      apply Hblocks. apply in_concat. now exists g.
  - rewrite len_map, <- Hcat. clear - Hne.
    induction Hne as [|g gs Hg Hgs IH]; [reflexivity|].
    cbn [concat]. rewrite len_cons, len_app.
    assert (1 <= len g); [|lia].
    destruct g; [congruence|]. rewrite len_cons. pose proof (len_nonneg g). lia.
Qed.

Lemma chunk_content_no_blank_chunk_witness :
  Forall (fun chunk => truthy (strip chunk) = true) (_chunk_content doc_three_small 7)
  /\ len (_chunk_content doc_three_small 7) <= len (issue_blocks doc_three_small).
Proof.
  apply (chunk_content_no_blank_chunk doc_three_small 7). vm_compute. reflexivity.
Defined.

(** ** When a call fails *)

(** Every call of [calls] made after [log] was answered. *)
Definition all_answered (llm : list llm_call -> llm_call -> result str)
           (log : list llm_call) (calls : list llm_call) : Prop :=
  exists replies, replies_to llm log calls replies.

Lemma summarize_parts_last llm (total : nat) (repo_info : str) :
  forall todo i acc log,
    (exists sums,
        summarize_parts llm total repo_info i todo acc log
        = (Ok (acc ++ sums), log ++ part_calls total repo_info i todo)
        /\ replies_to llm log (part_calls total repo_info i todo) sums)
    \/ (exists e before call,
          fst (summarize_parts llm total repo_info i todo acc log) = Raise e
          /\ snd (summarize_parts llm total repo_info i todo acc log)
             = log ++ before ++ [call]
          /\ all_answered llm log before
          /\ llm (log ++ before) call = Raise e
          /\ (length before < length todo)%nat).
Proof.
  induction todo as [|chunk rest IH]; intros i acc log.
  - left. exists []. cbn. now rewrite !app_nil_r.
  - cbn [summarize_parts]. unfold _call_llm.
    set (call := (_create_system_prompt,
                  _create_user_prompt chunk (part_info i total repo_info))).
    destruct (llm log call) as [reply|e] eqn:Hreply.
    + destruct (IH (S i) (acc ++ [reply]) (log ++ [call]))
        as [(sums & Hrun & Hrep)|(e & before & c & Hfst & Hsnd & Hans & Hfail & Hlen)].
      * left. exists (reply :: sums). rewrite Hrun.
        unfold part_calls. cbn [length seq combine map fst snd]. fold call.
        split; [now rewrite <- !app_assoc|].
        cbn [replies_to]. now split.
      * right. exists e, (call :: before), c.
        rewrite Hfst, Hsnd. split; [reflexivity|].
        split; [now rewrite <- !app_assoc|].
        split; [|split].
        -- destruct Hans as [replies Hr]. exists (reply :: replies).
           cbn [replies_to]. now split.
        -- now rewrite <- app_assoc in Hfail.
        -- cbn [length]. lia.
    + right. exists e, [], call. cbn [fst snd app length].
      split; [reflexivity|]. split; [reflexivity|].
      split; [now exists []|]. split; [now rewrite app_nil_r|lia].
Qed.

(** Whatever the backend does, [summarize_content] ends with the call it
    made last: every earlier call was answered, and the result is the
    answer, or the exception, of the last one. So the first failing call
    stops the summarization with its exception, and no more than one call
    per chunk and one reduction call are ever made. *)
Theorem summarize_content_stops_at_failure
  (llm : list llm_call -> llm_call -> result str)
  (content repo_info : str) (log0 : list llm_call) :
  exists before call,
    snd (summarize_content llm content repo_info log0) = log0 ++ before ++ [call]
    /\ all_answered llm log0 before
    /\ fst (summarize_content llm content repo_info log0) = llm (log0 ++ before) call
    /\ (length before <= length (_chunk_content content DEFAULT_MAX_TOKENS))%nat.
Proof.
  unfold summarize_content.
  set (chunks := _chunk_content content DEFAULT_MAX_TOKENS).
  assert (Hmulti :
    exists before call,
      snd (match summarize_parts llm (length chunks) repo_info 1 chunks [] log0 with
           | (Ok chunk_summaries, log') =>
               _call_llm llm _create_system_prompt
                 (final_prompt repo_info (join SUMMARY_SEP chunk_summaries)) log'
           | (Raise e, log') => (Raise e, log')
           end) = log0 ++ before ++ [call]
      /\ all_answered llm log0 before
      /\ fst (match summarize_parts llm (length chunks) repo_info 1 chunks [] log0 with
              | (Ok chunk_summaries, log') =>
                  _call_llm llm _create_system_prompt
                    (final_prompt repo_info (join SUMMARY_SEP chunk_summaries)) log'
              | (Raise e, log') => (Raise e, log')
              end) = llm (log0 ++ before) call
      /\ (length before <= length chunks)%nat).
  { destruct (summarize_parts_last llm (length chunks) repo_info chunks 1%nat [] log0)
      as [(sums & Hrun & Hrep)|(e & before & c & Hfst & Hsnd & Hans & Hfail & Hlen)].
    - rewrite Hrun. cbn [app]. unfold _call_llm. cbn [fst snd].
      exists (part_calls (length chunks) repo_info 1 chunks),
        (_create_system_prompt, final_prompt repo_info (join SUMMARY_SEP sums)).
      split; [now rewrite <- app_assoc|]. split; [now exists sums|].
      split; [reflexivity|].
      unfold part_calls. rewrite length_map, length_combine, length_seq. lia.
    - destruct (summarize_parts llm (length chunks) repo_info 1 chunks [] log0)
        as [[sums|e'] log'] eqn:Hrun; cbn [fst snd] in *; [discriminate|].
      exists before, c. subst log'. inversion Hfst; subst e'.
      split; [reflexivity|]. split; [assumption|]. split; [now rewrite Hfail|lia]. }
  destruct chunks as [|c1 [|c2 rest]] eqn:Echunks; try exact Hmulti.
  exists [], (_create_system_prompt, _create_user_prompt c1 repo_info).
  unfold _call_llm. cbn [fst snd app length].
  split; [reflexivity|]. split; [now exists []|].
  split; [now rewrite app_nil_r|lia].
Qed.

(* ================================================================== *)
(** * More of github_scraper.py *)

(** ** Failed requests *)

(** A reply that makes the body of [_make_request] raise without
    sleeping: no connection, or an error status other than 403. *)
Definition plain_failure {J : Type} (reply : http_reply J) : Prop :=
  match reply with
  | NetError => True
  | Reply r => 400 <= status_code r < 600 /\ status_code r <> 403
  end.

Lemma request_once_plain_failure {J : Type} (net : network J)
      (self : str -> params_t -> M (response J)) (url : str) (params : params_t)
      (w : world) :
  plain_failure (net (served w) url params) ->
  exists e,
    request_once net self url params w
    = (Raises e, {| served := S (served w); clock := clock w;
                    trace := trace w ++ [EGet url params] |}).
Proof.
  intros H. unfold request_once, session_get.
  destruct (net (served w) url params) as [r|]; [|now exists ConnectionError].
  destruct H as [Hs H403].
  destruct (Z.eqb_spec (status_code r) 403); [contradiction|].
  unfold raise_for_status.
  destruct (Z.leb_spec 400 (status_code r)); [|lia].
  destruct (Z.ltb_spec (status_code r) 600); [|lia].
  now exists HTTPError.
Qed.

(** Three plain failures in a row: three requests, a wait of four seconds
    after the first and after the second, then [RetryError]. *)
Lemma make_request_three_failures {J : Type} (net : network J) (fuel : nat)
      (url : str) (params : params_t) (w : world) :
  (forall k, (k < 3)%nat -> plain_failure (net (served w + k)%nat url params)) ->
  _make_request net (S fuel) url params w
  = (Raises RetryError,
     {| served := (served w + 3)%nat;
        clock := clock w + 8;
        trace := trace w ++ [EGet url params; ESleep 4; EGet url params;
                             ESleep 4; EGet url params] |}).
Proof.
  intros Hfail. cbn [_make_request retrying].
  destruct (request_once_plain_failure net (_make_request net fuel) url params w)
    as [e1 H1]; [rewrite <- (Nat.add_0_r (served w)); apply Hfail; lia|].
  rewrite H1.
  set (w1 := sleep (wait_exponential 1) _).
  destruct (request_once_plain_failure net (_make_request net fuel) url params w1)
    as [e2 H2].
  { subst w1. cbn [sleep served]. rewrite <- Nat.add_1_r. apply Hfail. lia. }
  rewrite H2.
  set (w2 := sleep (wait_exponential (1 + 1)) _).
  destruct (request_once_plain_failure net (_make_request net fuel) url params w2)
    as [e3 H3].
  { subst w2 w1. cbn [sleep served].
    replace (S (S (served w))) with (served w + 2)%nat by lia. apply Hfail. lia. }
  rewrite H3. subst w2 w1. cbn [sleep served clock trace].
  f_equal. f_equal.
  - lia.
  - change (wait_exponential 1) with 4. change (wait_exponential (1 + 1)) with 4. lia.
  - change (wait_exponential 1) with 4. change (wait_exponential (1 + 1)) with 4.
    now rewrite <- !app_assoc.
Qed.

(** When the server fails plainly three times in a row, [_make_request]
    sends the request three times, sleeping four seconds after the first
    and the second failure, and raises [RetryError]. *)
Theorem make_request_gives_up {J : Type} (net : network J) (fuel : nat)
        (url : str) (params : params_t) (w : world) :
  (forall k, (k < 3)%nat -> plain_failure (net (served w + k)%nat url params)) ->
  fst (_make_request net (S fuel) url params w) = Raises RetryError
  /\ trace (snd (_make_request net (S fuel) url params w))
     = trace w ++ [EGet url params; ESleep 4; EGet url params;
                   ESleep 4; EGet url params]
  /\ clock (snd (_make_request net (S fuel) url params w)) = clock w + 8.
Proof.
  intros H. rewrite (make_request_three_failures net fuel url params w H).
  repeat split.
Qed.

(** A server that cannot be reached. *)
Definition net_unreachable : network (list api_object) := fun _ _ _ => NetError.

Lemma make_request_gives_up_witness :
  fst (_make_request net_unreachable 1 (issues_url (lit "o") (lit "r"))
         (issues_params 1) (world_at 0)) = Raises RetryError
  /\ trace (snd (_make_request net_unreachable 1 (issues_url (lit "o") (lit "r"))
                   (issues_params 1) (world_at 0)))
     = trace (world_at 0)
       ++ [EGet (issues_url (lit "o") (lit "r")) (issues_params 1); ESleep 4;
           EGet (issues_url (lit "o") (lit "r")) (issues_params 1); ESleep 4;
           EGet (issues_url (lit "o") (lit "r")) (issues_params 1)]
  /\ clock (snd (_make_request net_unreachable 1 (issues_url (lit "o") (lit "r"))
                   (issues_params 1) (world_at 0))) = clock (world_at 0) + 8.
Proof.
  apply (make_request_gives_up net_unreachable 0).
  intros k Hk. exact I.
Defined.

Lemma retrying_only_retry_error {A : Type} (f : M A) :
  forall n a w,
    match fst (retrying n a f w) with
    | Raises e => e = RetryError
    | _ => True
    end.
Proof.
  induction n as [|n IH]; intros a w; [reflexivity|].
  cbn [retrying]. destruct (f w) as [[x|e|] w']; cbn [fst]; auto.
  destruct n; [reflexivity|]. apply IH.
Qed.

(** The only exception that leaves [_make_request] is [RetryError]: the
    [HTTPError] and connection errors of its attempts never do. *)
Theorem make_request_only_retry_error {J : Type} (net : network J) (fuel : nat)
        (url : str) (params : params_t) (w : world) :
  match fst (_make_request net fuel url params w) with
  | Raises e => e = RetryError /\ is_RequestException e = false
  | _ => True
  end.
Proof.
  destruct fuel as [|f]; [exact I|]. cbn [_make_request].
  pose proof (retrying_only_retry_error
                (request_once net (_make_request net f) url params) 3 1 w) as H.
  destruct (fst (retrying 3 1 (request_once net (_make_request net f) url params) w));
    auto.
  subst e. now split.
Qed.

(** When the request for a page fails three times, [fetch_issues] does not
    return the issues of the pages before: the [RetryError] leaves it. *)
Theorem fetch_issues_failure_propagates
        (net : network (list api_object)) (owner repo : str) (max_issues : option Z)
        (fuel rl_fuel : nat) (page : Z) (issues : list api_object) (w : world) :
  (forall k, (k < 3)%nat ->
             plain_failure (net (served w + k)%nat (issues_url owner repo)
                                (issues_params page))) ->
  fst (fetch_loop net owner repo max_issues (S fuel) (S rl_fuel) page issues w)
  = Raises RetryError.
Proof.
  intros H. cbn [fetch_loop].
  now rewrite (make_request_three_failures net rl_fuel _ _ w H).
Qed.

Lemma fetch_issues_failure_propagates_witness :
  fst (fetch_loop net_unreachable (lit "o") (lit "r") None 1 1 3
         [sample_issue 1 Null false] (world_at 0))
  = Raises RetryError.
Proof.
  apply (fetch_issues_failure_propagates net_unreachable (lit "o") (lit "r") None 0 0 3
           [sample_issue 1 Null false] (world_at 0)).
  intros k Hk. exact I.
Defined.

(** After three plain failures of the comments request, [fetch_comments]
    does not return the empty list: the [RetryError] leaves it. *)
Theorem fetch_comments_failure_propagates
        (net : network (list comment)) (rl_fuel : nat) (owner repo : str)
        (issue_number : Z) (w : world) :
  (forall k, (k < 3)%nat ->
             plain_failure (net (served w + k)%nat
                                (comments_url owner repo issue_number) None)) ->
  fst (fetch_comments net (S rl_fuel) owner repo issue_number w) = Raises RetryError.
Proof.
  intros H. unfold fetch_comments.
  now rewrite (make_request_three_failures net rl_fuel _ _ w H).
Qed.

Lemma fetch_comments_failure_propagates_witness :
  fst (fetch_comments net_down 1 (lit "o") (lit "r") 7 (world_at 0)) = Raises RetryError.
Proof.
  apply (fetch_comments_failure_propagates net_down 0 (lit "o") (lit "r") 7 (world_at 0)).
  intros k Hk. exact I.
Defined.

(** A response whose status is neither 403 nor an error costs one request
    and no sleep, and is what [_make_request] returns. *)
Theorem make_request_single_get {J : Type} (net : network J) (fuel : nat)
        (url : str) (params : params_t) (w : world) (r : response J) :
  net (served w) url params = Reply r ->
  status_code r <> 403 ->
  ~ (400 <= status_code r < 600) ->
  fst (_make_request net (S fuel) url params w) = Returns r
  /\ trace (snd (_make_request net (S fuel) url params w)) = trace w ++ [EGet url params]
  /\ clock (snd (_make_request net (S fuel) url params w)) = clock w
  /\ served (snd (_make_request net (S fuel) url params w)) = S (served w).
Proof.
  intros Hnet H403 Hok.
  rewrite (make_request_ok net fuel url params w r Hnet H403 Hok).
  repeat split.
Qed.

Lemma make_request_single_get_witness :
  fst (_make_request (serve_pages [[sample_issue 1 Null false]]) 1
         (issues_url (lit "o") (lit "r")) (issues_params 1) (world_at 0))
  = Returns {| status_code := 200; rate_remaining := Some 4999; rate_reset := Some 0;
               link := None; json := [sample_issue 1 Null false] |}
  /\ trace (snd (_make_request (serve_pages [[sample_issue 1 Null false]]) 1
                   (issues_url (lit "o") (lit "r")) (issues_params 1) (world_at 0)))
     = trace (world_at 0) ++ [EGet (issues_url (lit "o") (lit "r")) (issues_params 1)]
  /\ clock (snd (_make_request (serve_pages [[sample_issue 1 Null false]]) 1
                   (issues_url (lit "o") (lit "r")) (issues_params 1) (world_at 0)))
     = clock (world_at 0)
  /\ served (snd (_make_request (serve_pages [[sample_issue 1 Null false]]) 1
                    (issues_url (lit "o") (lit "r")) (issues_params 1) (world_at 0)))
     = S (served (world_at 0)).
Proof.
  apply (make_request_single_get (serve_pages [[sample_issue 1 Null false]]) 0).
  - reflexivity.
  - cbn. lia.
  - cbn. lia.
Defined.

(** ** A complete fetch *)

Definition without_pull_requests (l : list api_object) : list api_object :=
  filter (fun issue => negb (pull_request issue)) l.

(** The cap applied to a list: none, or a positive number of issues. *)
Definition capped (max_issues : option Z) (l : list api_object) : list api_object :=
  match max_issues with
  | Some m => firstn (Z.to_nat m) l
  | None => l
  end.

Definition usable_cap (max_issues : option Z) : Prop :=
  match max_issues with
  | Some m => 0 < m
  | None => True
  end.

Definition below_cap (max_issues : option Z) (l : list api_object) : Prop :=
  match max_issues with
  | Some m => len l < m
  | None => True
  end.

Lemma skipn_nth_cons {A : Type} (l : list A) (j : nat) (d : A) :
  (j < length l)%nat -> skipn j l = nth j l d :: skipn (S j) l.
Proof.
  revert j. induction l as [|x l IH]; intros j Hj; [cbn in Hj; lia|].
  destruct j as [|j]; [reflexivity|]. cbn [skipn nth].
  apply IH. cbn in Hj. lia.
Qed.

Lemma capped_below (max_issues : option Z) (l : list api_object) :
  below_cap max_issues l -> capped max_issues l = l.
Proof.
  destruct max_issues as [m|]; cbn; [|reflexivity].
  intros H. apply firstn_all2. unfold len in H. lia.
Qed.

Lemma cap_reached_spec (max_issues : option Z) (l : list api_object) :
  usable_cap max_issues ->
  (exists m, max_issues = Some m /\ m <= len l /\ cap_reached max_issues l = Some m)
  \/ (below_cap max_issues l /\ cap_reached max_issues l = None).
Proof.
  destruct max_issues as [m|]; cbn [usable_cap below_cap]; intros H.
  - rewrite cap_reached_positive by assumption.
    destruct (Z.leb_spec m (len l)); [left; now exists m|right; now split].
  - right. now split.
Qed.

Section CompleteFetch.
Variable pages : list (list api_object).
Variable owner repo : str.
Variable max_issues : option Z.
Hypothesis cap_ok : usable_cap max_issues.
Hypothesis pages_nonempty : Forall (fun p => p <> []) pages.

Lemma fetch_loop_complete (rl_fuel : nat) :
  forall fuel j issues w,
    (length pages - j + 2 <= fuel)%nat ->
    below_cap max_issues issues ->
    fst (fetch_loop (serve_pages pages) owner repo max_issues fuel (S rl_fuel)
           (Z.of_nat j + 1) issues w)
    = Returns (capped max_issues
                 (issues ++ without_pull_requests (concat (skipn j pages)))).
Proof.
  induction fuel as [|f IH]; intros j issues w Hfuel Hbelow; [lia|].
  cbn [fetch_loop].
  rewrite (make_request_ok (serve_pages pages) rl_fuel _ _ w
             (mk_response _ 200 (Some 4999) (Some 0)
                (if Z.of_nat j + 1 <? len pages
                 then Some (lit "<https://api.github.com/next>; " ++ REL_NEXT)
                 else None)
                (nth (Z.to_nat (Z.of_nat j + 1 - 1)) pages [])));
    [|reflexivity|cbn; lia|cbn; lia].
  cbn [json link]. replace (Z.to_nat (Z.of_nat j + 1 - 1)) with j by lia.
  destruct (Nat.lt_ge_cases j (length pages)) as [Hin|Hout].
  - assert (Hpage : nth j pages [] <> []).
    { rewrite Forall_forall in pages_nonempty. apply pages_nonempty.
      now apply nth_In. }
    apply truthy_true in Hpage. rewrite Hpage. cbn [negb].
    rewrite (skipn_nth_cons pages j [] Hin). cbn [concat].
    unfold without_pull_requests. rewrite filter_app.
    fold (without_pull_requests (nth j pages [])).
    fold (without_pull_requests (concat (skipn (S j) pages))).
    rewrite app_assoc.
    set (acc := issues ++ without_pull_requests (nth j pages [])).
    change (issues ++ filter (fun issue => negb (pull_request issue)) (nth j pages []))
      with acc.
    destruct (cap_reached_spec max_issues acc cap_ok)
      as [(m & Em & Hm & Hcap)|[Hb Hcap]]; rewrite Hcap; cbn [fst].
    + rewrite Em. cbn [capped usable_cap] in *. rewrite Em in cap_ok.
      rewrite slice_to_positive by assumption.
      rewrite firstn_app.
      replace (Z.to_nat m - length acc)%nat with 0%nat by (unfold len in Hm; lia).
      now rewrite firstn_O, app_nil_r.
    + assert (Hnext : fst (fetch_loop (serve_pages pages) owner repo max_issues f
                             (S rl_fuel) (Z.of_nat j + 1 + 1) acc
                             {| served := S (served w); clock := clock w;
                                trace := trace w ++ [EGet (issues_url owner repo)
                                                       (issues_params (Z.of_nat j + 1))] |})
                      = Returns (capped max_issues
                                   (acc ++ without_pull_requests
                                             (concat (skipn (S j) pages))))).
      { replace (Z.of_nat j + 1 + 1) with (Z.of_nat (S j) + 1) by lia.
        apply IH; [lia|assumption]. }
      destruct (Z.ltb_spec (Z.of_nat j + 1) (len pages)) as [Hlt|Hge].
      * assert (Hrel : contains REL_NEXT
                         (lit "<https://api.github.com/next>; " ++ REL_NEXT) = true)
          by (vm_compute; reflexivity).
        rewrite Hrel. exact Hnext.
      * assert (Hlast : skipn (S j) pages = []).
        { apply skipn_all2. unfold len in Hge. lia. }
        match goal with
        | |- context [if ?b then _ else _] => destruct b
        end; [exact Hnext|].
        cbn [fst]. rewrite Hlast. cbn [concat without_pull_requests filter].
        rewrite app_nil_r. now rewrite capped_below.
  - rewrite nth_overflow by assumption. cbn [truthy negb fst].
    rewrite skipn_all2 by assumption. cbn [concat without_pull_requests filter].
    rewrite app_nil_r. now rewrite capped_below.
Qed.
End CompleteFetch.

(** Against a server that serves a sequence of non-empty pages,
    [fetch_issues] returns the issues of all the pages in page order
    without the pull requests, cut to the first [max_issues] of them when
    a positive cap is given. *)
Theorem fetch_issues_complete
        (pages : list (list api_object)) (owner repo : str) (max_issues : option Z)
        (rl_fuel : nat) (w : world) :
  usable_cap max_issues ->
  Forall (fun p => p <> []) pages ->
  fst (fetch_issues (serve_pages pages) owner repo max_issues
         (S (S (length pages))) (S rl_fuel) w)
  = Returns (capped max_issues (without_pull_requests (concat pages))).
Proof.
  intros Hcap Hpages. unfold fetch_issues.
  assert (Hbelow : below_cap max_issues []).
  { destruct max_issues; cbn in *; [change (len (@nil api_object)) with 0; lia|exact I]. }
  exact (fetch_loop_complete pages owner repo max_issues Hcap Hpages rl_fuel
           (S (S (length pages))) 0 [] w ltac:(lia) Hbelow).
Qed.

Lemma fetch_issues_complete_witness :
  fst (fetch_issues
         (serve_pages [[sample_issue 1 Null false; sample_issue 2 Null true];
                       [sample_issue 3 Null false]])
         (lit "o") (lit "r") None 4 1 (world_at 0))
  = Returns [sample_issue 1 Null false; sample_issue 3 Null false].
Proof.
  apply (fetch_issues_complete
           [[sample_issue 1 Null false; sample_issue 2 Null true];
            [sample_issue 3 Null false]]
           (lit "o") (lit "r") None 0 (world_at 0)).
  - exact I.
  - repeat constructor; discriminate.
Defined.

(** ** Rendering without requests *)

(** The four parts that open a document of [n] issues. *)
Definition preamble (fromisoformat : str -> result datetime) (owner repo generated : str)
           (n : Z) : list str :=
  [lit "# GitHub Issues for " ++ owner ++ lit "/" ++ repo ++ [NL; NL];
   lit "*Generated on " ++ shown_datetime fromisoformat generated ++ lit "*" ++ [NL; NL];
   lit "**Total Open Issues:** " ++ str_of_Z n ++ [NL; NL];
   lit "---" ++ [NL; NL]].

(** The parts of an issue that has no Comments section. *)
Definition plain_block (fromisoformat : str -> result datetime) (issue : api_object)
  : list str :=
  header_section fromisoformat issue ++ description_section issue
  ++ [lit "---" ++ [NL; NL]].

(** No comment request is due: comments are not wanted, or no issue
    reports any. *)
Definition no_comments_due (want_comments : bool) (issues : list api_object) : Prop :=
  want_comments = false \/ Forall (fun issue => comments issue <= 0) issues.

Section RenderFacts.
Variable fromisoformat : str -> result datetime.
Variable net : network (list comment).
Variable rl_fuel : nat.
Variable owner repo : str.

Lemma issues_parts_offline (want_comments : bool) :
  forall issues markdown_parts w,
    no_comments_due want_comments issues ->
    issues_parts fromisoformat net rl_fuel owner repo want_comments issues
                 markdown_parts w
    = (Returns (markdown_parts ++ flat_map (plain_block fromisoformat) issues), w).
Proof.
  induction issues as [|issue rest IH]; intros parts w Hdue.
  - cbn. now rewrite app_nil_r.
  - cbn [issues_parts]. unfold issue_parts.
    assert (Hno : (want_comments && (0 <? comments issue))%bool = false).
    { destruct Hdue as [->|Hall]; [reflexivity|].
      inversion Hall as [|? ? Hc _]; subst.
      destruct (Z.ltb_spec 0 (comments issue)); [lia|apply andb_false_r]. }
    rewrite Hno. rewrite IH.
    + cbn [flat_map]. unfold plain_block. now rewrite <- !app_assoc.
    + destruct Hdue as [->|Hall]; [now left|right]. now inversion Hall.
Qed.
End RenderFacts.

(** When comments are not wanted, or no issue reports a comment,
    [issues_to_markdown] sends no request and cannot fail; the document is
    the preamble followed by one block per issue, in the order given. *)
Theorem issues_to_markdown_offline
        (fromisoformat : str -> result datetime) (net : network (list comment))
        (rl_fuel : nat) (owner repo generated : str) (issues : list api_object)
        (want_comments : bool) (w : world) :
  no_comments_due want_comments issues ->
  issues_to_markdown fromisoformat net rl_fuel owner repo generated issues
                     want_comments w
  = (Returns (concat (preamble fromisoformat owner repo generated (len issues)
                      ++ flat_map (plain_block fromisoformat) issues)),
     w).
Proof.
  intros Hdue. unfold issues_to_markdown.
  now rewrite (issues_parts_offline fromisoformat net rl_fuel owner repo
                 want_comments issues _ w Hdue).
Qed.

Lemma issues_to_markdown_offline_witness :
  issues_to_markdown fromisoformat_rejecting net_down 1 (lit "o") (lit "r")
                     (lit "2024-05-02T00:00:00Z")
                     [sample_issue 1 (Text (lit "It fails.")) false] true (world_at 0)
  = (Returns (concat (preamble fromisoformat_rejecting (lit "o") (lit "r")
                        (lit "2024-05-02T00:00:00Z") 1
                      ++ flat_map (plain_block fromisoformat_rejecting)
                           [sample_issue 1 (Text (lit "It fails.")) false])),
     world_at 0).
Proof.
  apply (issues_to_markdown_offline fromisoformat_rejecting net_down 1 (lit "o") (lit "r")
           (lit "2024-05-02T00:00:00Z")
           [sample_issue 1 (Text (lit "It fails.")) false] true (world_at 0)).
  right. repeat constructor. cbn. lia.
Defined.

(** ** [save_issues] *)

(** A file written: path and content. *)
Definition file : Type := (str * str)%type.

(** The name of the file of chunk [i] out of [n_chunks]. *)
Definition chunk_filename (owner repo : str) (n_chunks i : nat) : str :=
  if Nat.ltb 1 n_chunks
  then get_repo_filename owner repo (lit "issues_" ++ str_of_Z (Z.of_nat i)) ++ lit ".md"
  else get_repo_filename owner repo (lit "issues") ++ lit ".md".

Section SaveIssues.
Variable fromisoformat : str -> result datetime.
Variable net_issues : network (list api_object).
Variable net_comments : network (list comment).
(** [time.strftime('%Y-%m-%dT%H:%M:%SZ')] at a reading of the clock. *)
Variable strftime_now : Z -> str.
(** [str(output_path / filename)]. *)
Variable path_join : str -> str -> str.
Variable fuel rl_fuel : nat.

(** [for i, chunk in enumerate(chunks, 1)] of [save_issues]; the files
    written so far stay written when a later chunk fails. *)
Fixpoint save_chunks (owner repo output_dir : str) (n_chunks : nat) (i : nat)
         (todo : list (list api_object)) (saved_files : list str) (written : list file)
  : world -> (run (list str) * list file) * world :=
  fun w =>
    match todo with
    | [] => ((Returns saved_files, written), w)
    | chunk :: rest =>
        match issues_to_markdown fromisoformat net_comments rl_fuel owner repo
                (strftime_now (clock w)) chunk true w with
        | (Returns markdown_content, w1) =>
            let filepath := path_join output_dir (chunk_filename owner repo n_chunks i) in
            save_chunks owner repo output_dir n_chunks (S i) rest
                        (saved_files ++ [filepath])
                        (written ++ [(filepath, markdown_content)]) w1
        | (Raises e, w1) => ((Raises e, written), w1)
        | (Unfinished, w1) => ((Unfinished, written), w1)
        end
    end.

(** [save_issues(url, output_dir, max_issues, max_issues_per_file)]. *)
Definition save_issues (url output_dir : str) (max_issues : option Z)
           (max_issues_per_file : Z)
  : world -> (run (list str) * list file) * world :=
  fun w =>
    match parse_github_url url with
    | Raise e => ((Raises e, []), w)
    | Ok (owner, repo) =>
        match fetch_issues net_issues owner repo max_issues fuel rl_fuel w with
        | (Returns issues, w1) =>
            if negb (truthy issues) then ((Returns [], []), w1)
            else
              match split_into_chunks issues max_issues_per_file with
              | Raise e => ((Raises e, []), w1)
              | Ok chunks =>
                  save_chunks owner repo output_dir (length chunks) 1 chunks [] [] w1
              end
        | (Raises e, w1) => ((Raises e, []), w1)
        | (Unfinished, w1) => ((Unfinished, []), w1)
        end
    end.

(** The files of a list of chunks, numbered from [first]. *)
Definition chunk_files (owner repo output_dir : str) (n_chunks first : nat)
           (generated : str) (todo : list (list api_object)) : list file :=
  map (fun ic =>
         (path_join output_dir (chunk_filename owner repo n_chunks (fst ic)),
          concat (preamble fromisoformat owner repo generated (len (snd ic))
                  ++ flat_map (plain_block fromisoformat) (snd ic))))
      (combine (seq first (length todo)) todo).

Lemma save_chunks_offline (owner repo output_dir : str) (n_chunks : nat) :
  forall todo i saved_files written w,
    Forall (fun chunk => Forall (fun issue => comments issue <= 0) chunk) todo ->
    save_chunks owner repo output_dir n_chunks i todo saved_files written w
    = ((Returns (saved_files
                 ++ map fst (chunk_files owner repo output_dir n_chunks i
                               (strftime_now (clock w)) todo)),
        written ++ chunk_files owner repo output_dir n_chunks i
                     (strftime_now (clock w)) todo),
       w).
Proof.
  induction todo as [|chunk rest IH]; intros i saved_files written w Hall.
  - cbn. now rewrite !app_nil_r.
  - cbn [save_chunks]. inversion Hall as [|? ? Hchunk Hrest]; subst.
    unfold issues_to_markdown.
    rewrite (issues_parts_offline fromisoformat net_comments rl_fuel owner repo true
               chunk _ w (or_intror Hchunk)).
    fold (preamble fromisoformat owner repo (strftime_now (clock w)) (len chunk)).
    rewrite (IH (S i) _ _ w Hrest).
    unfold chunk_files. cbn [length seq combine map fst snd].
    now rewrite <- !app_assoc.
Qed.
End SaveIssues.

Lemma split_into_chunks_concat {A : Type} (items : list A) (k : Z) :
  0 < k ->
  exists groups,
    split_into_chunks items k = Ok groups
    /\ concat groups = items
    /\ len groups = ceil_div (len items) k.
Proof.
  intros Hk. unfold split_into_chunks, py_range.
  destruct (Z.eqb_spec k 0); [lia|].
  destruct (Z.ltb_spec 0 k); [|lia].
  eexists. split; [reflexivity|].
  destruct (range_up_chunks items k Hk (Z.to_nat (len items - 0)) 0)
    as (Hn & _ & Hcat); [lia|lia|].
  rewrite Z.sub_0_r in *. split; [exact Hcat|].
  rewrite len_map, Hn.
  pose proof (ceil_div_spec (len items) k Hk).
  pose proof (len_nonneg items). apply Z.max_r. nia.
Qed.

Lemma Forall_concat_inv {A : Type} (P : A -> Prop) (groups : list (list A)) :
  Forall P (concat groups) -> Forall (fun g => Forall P g) groups.
Proof.
  induction groups as [|g gs IH]; intros H; [constructor|].
  cbn [concat] in H. apply Forall_app in H. destruct H as [Hg Hgs].
  constructor; [assumption|now apply IH].
Qed.

(** The name of a chunk's file, written out: the owner, an underscore, the
    repository, then [_issues.md] when there is one chunk and
    [_issues_i.md] for chunk [i] of several. *)
Lemma chunk_filename_written (owner repo : str) (n_chunks i : nat) :
  (0 < n_chunks)%nat ->
  chunk_filename owner repo n_chunks i
  = owner ++ lit "_" ++ repo
    ++ (if Nat.eqb n_chunks 1 then lit "_issues.md"
        else lit "_issues_" ++ str_of_Z (Z.of_nat i) ++ lit ".md").
Proof.
  intros Hn. unfold chunk_filename, get_repo_filename.
  destruct n_chunks as [|[|n]]; [lia| |].
  - cbn [Nat.ltb Nat.leb Nat.eqb]. change (truthy (lit "issues")) with true.
    cbv iota zeta. repeat rewrite <- app_assoc. reflexivity.
  - cbn [Nat.ltb Nat.leb Nat.eqb].
    change (truthy (lit "issues_" ++ str_of_Z (Z.of_nat i))) with true.
    cbv iota zeta. repeat rewrite <- app_assoc. reflexivity.
Qed.

(** With a positive [max_issues_per_file], issues fetched, and no comments
    to request, [save_issues] writes [ceil(N / max_issues_per_file)] files,
    one per group of [split_into_chunks] and in that order. The file of a
    single group is named [OWNER_REPO_issues.md]; with several groups the
    file of group [i], counted from 1, is named [OWNER_REPO_issues_i.md].
    Each file holds the document of its own group (so its total line
    counts that group); the paths are returned in order and no request is
    sent after the fetch. *)
Theorem save_issues_files
        (fromisoformat : str -> result datetime)
        (net_issues : network (list api_object)) (net_comments : network (list comment))
        (strftime_now : Z -> str) (path_join : str -> str -> str) (fuel rl_fuel : nat)
        (url output_dir owner repo : str) (max_issues : option Z) (k : Z)
        (issues : list api_object) (w w1 : world) :
  parse_github_url url = Ok (owner, repo) ->
  fetch_issues net_issues owner repo max_issues fuel rl_fuel w = (Returns issues, w1) ->
  issues <> [] ->
  0 < k ->
  Forall (fun issue => comments issue <= 0) issues ->
  exists groups,
    let files :=
      map (fun numbered =>
             let i := fst numbered in
             let group := snd numbered in
             (path_join output_dir
                (owner ++ lit "_" ++ repo
                 ++ (if Nat.eqb (length groups) 1 then lit "_issues.md"
                     else lit "_issues_" ++ str_of_Z (Z.of_nat i) ++ lit ".md")),
              concat (preamble fromisoformat owner repo (strftime_now (clock w1))
                               (len group)
                      ++ flat_map (plain_block fromisoformat) group)))
          (combine (seq 1 (length groups)) groups) in
    split_into_chunks issues k = Ok groups
    /\ len groups = ceil_div (len issues) k
    /\ save_issues fromisoformat net_issues net_comments strftime_now path_join
                   fuel rl_fuel url output_dir max_issues k w
       = ((Returns (map fst files), files), w1).
Proof.
  intros Hurl Hfetch Hne Hk Hquiet.
  destruct (split_into_chunks_concat issues k Hk) as (groups & Hsplit & Hcat & Hlen).
  exists groups. cbv zeta. split; [exact Hsplit|]. split; [exact Hlen|].
  assert (Hpos : (0 < length groups)%nat).
  { destruct groups; [cbn in Hcat; congruence|cbn; lia]. }
  unfold save_issues. rewrite Hurl, Hfetch.
  apply truthy_true in Hne. rewrite Hne. cbn [negb]. rewrite Hsplit.
  rewrite (save_chunks_offline fromisoformat net_comments strftime_now path_join
             rl_fuel owner repo output_dir (length groups) groups 1 [] [] w1).
  - cbn [app]. unfold chunk_files.
    rewrite (map_ext _ _
               (fun ic => f_equal
                  (fun name =>
                     (path_join output_dir name,
                      concat (preamble fromisoformat owner repo (strftime_now (clock w1))
                                       (len (snd ic))
                              ++ flat_map (plain_block fromisoformat) (snd ic))))
                  (chunk_filename_written owner repo (length groups) (fst ic) Hpos))).
    reflexivity.
  - apply Forall_concat_inv. now rewrite Hcat.
Qed.

(** With a [max_issues_per_file] of zero or less, [save_issues] writes no
    file although issues were fetched: zero raises [ValueError], a
    negative value returns an empty list of paths. *)
Theorem save_issues_bad_chunk_size
        (fromisoformat : str -> result datetime)
        (net_issues : network (list api_object)) (net_comments : network (list comment))
        (strftime_now : Z -> str) (path_join : str -> str -> str) (fuel rl_fuel : nat)
        (url output_dir owner repo : str) (max_issues : option Z) (k : Z)
        (issues : list api_object) (w w1 : world) :
  parse_github_url url = Ok (owner, repo) ->
  fetch_issues net_issues owner repo max_issues fuel rl_fuel w = (Returns issues, w1) ->
  issues <> [] ->
  k <= 0 ->
  save_issues fromisoformat net_issues net_comments strftime_now path_join
              fuel rl_fuel url output_dir max_issues k w
  = ((if k =? 0 then Raises ValueError else Returns [], []), w1).
Proof.
  intros Hurl Hfetch Hne Hk. unfold save_issues. rewrite Hurl, Hfetch.
  apply truthy_true in Hne. rewrite Hne. cbn [negb].
  unfold split_into_chunks, py_range.
  destruct (Z.eqb_spec k 0); [reflexivity|].
  destruct (Z.ltb_spec 0 k); [lia|].
  pose proof (len_nonneg issues).
  destruct (Z.leb_spec 0 (len issues)); [reflexivity|lia].
Qed.

(** The pieces of a concrete run: three issues behind one page. *)
Definition three_issues : list api_object :=
  [sample_issue 1 Null false; sample_issue 2 Null false; sample_issue 3 Null false].

Definition world_after_one_get : world :=
  {| served := 1; clock := 0;
     trace := [EGet (issues_url (lit "o") (lit "r")) (issues_params 1)] |}.

Definition strftime_fixed : Z -> str := fun _ => lit "2024-05-02T00:00:00Z".
Definition path_join_slash : str -> str -> str := fun d f => d ++ lit "/" ++ f.

Lemma save_issues_files_witness :
  fst (save_issues fromisoformat_rejecting (serve_pages [three_issues]) net_down
                   strftime_fixed path_join_slash 3 1
                   (lit "https://github.com/o/r") (lit "issues") None 2 (world_at 0))
  = (Returns [lit "issues/o_r_issues_1.md"; lit "issues/o_r_issues_2.md"],
     [(lit "issues/o_r_issues_1.md",
       concat (preamble fromisoformat_rejecting (lit "o") (lit "r")
                        (lit "2024-05-02T00:00:00Z") 2
               ++ flat_map (plain_block fromisoformat_rejecting)
                    [sample_issue 1 Null false; sample_issue 2 Null false]));
      (lit "issues/o_r_issues_2.md",
       concat (preamble fromisoformat_rejecting (lit "o") (lit "r")
                        (lit "2024-05-02T00:00:00Z") 1
               ++ flat_map (plain_block fromisoformat_rejecting)
                    [sample_issue 3 Null false]))]).
Proof.
  destruct (save_issues_files fromisoformat_rejecting (serve_pages [three_issues])
              net_down strftime_fixed path_join_slash 3 1
              (lit "https://github.com/o/r") (lit "issues") (lit "o") (lit "r") None 2
              three_issues (world_at 0) world_after_one_get)
    as (groups & Hsplit & _ & Hrun).
  - vm_compute. reflexivity.
  - vm_compute. reflexivity.
  - discriminate.
  - lia.
  - repeat constructor; cbn; lia.
  - rewrite Hrun. injection Hsplit as <-. vm_compute. reflexivity.
Defined.

Lemma save_issues_bad_chunk_size_witness :
  save_issues fromisoformat_rejecting (serve_pages [three_issues]) net_down
              strftime_fixed path_join_slash 3 1
              (lit "https://github.com/o/r") (lit "issues") None (-5) (world_at 0)
  = ((Returns [], []), world_after_one_get).
Proof.
  apply (save_issues_bad_chunk_size fromisoformat_rejecting
           (serve_pages [three_issues]) net_down
           strftime_fixed path_join_slash 3 1
           (lit "https://github.com/o/r") (lit "issues") (lit "o") (lit "r") None (-5)
           three_issues (world_at 0) world_after_one_get).
  - vm_compute. reflexivity.
  - vm_compute. reflexivity.
  - discriminate.
  - lia.
Defined.

(** ** A negative cap *)

(** A negative [max_issues] is truthy and never above the count, so the
    first non-empty page ends the fetch, and the slice [issues[:max_issues]]
    drops that many issues from the end of what the page gave. *)
Theorem fetch_issues_negative_cap
        (net : network (list api_object)) (owner repo : str) (m : Z)
        (fuel rl_fuel : nat) (w : world) (r : response (list api_object)) :
  net (served w) (issues_url owner repo) (issues_params 1) = Reply r ->
  status_code r = 200 ->
  json r <> [] ->
  m < 0 ->
  fst (fetch_issues net owner repo (Some m) (S fuel) (S rl_fuel) w)
  = Returns (firstn (Z.to_nat (len (without_pull_requests (json r)) + m))
               (without_pull_requests (json r))).
Proof.
  intros Hnet Hstatus Hne Hm. unfold fetch_issues. cbn [fetch_loop].
  rewrite (make_request_ok net rl_fuel _ _ w r Hnet) by lia.
  apply truthy_true in Hne. rewrite Hne. cbn [negb app].
  fold (without_pull_requests (json r)).
  unfold cap_reached.
  destruct (Z.eqb_spec m 0); [lia|].
  pose proof (len_nonneg (without_pull_requests (json r))).
  destruct (Z.leb_spec m (len (without_pull_requests (json r)))); [|lia].
  cbn [negb andb fst]. unfold slice_to, slice_index.
  destruct (Z.ltb_spec m 0); [|lia].
  f_equal. f_equal. lia.
Qed.

Lemma fetch_issues_negative_cap_witness :
  fst (fetch_issues (serve_pages [three_issues]) (lit "o") (lit "r") (Some (-1)) 1 1
         (world_at 0))
  = Returns [sample_issue 1 Null false; sample_issue 2 Null false].
Proof.
  apply (fetch_issues_negative_cap (serve_pages [three_issues]) (lit "o") (lit "r") (-1)
           0 0 (world_at 0)
           {| status_code := 200; rate_remaining := Some 4999; rate_reset := Some 0;
              link := None; json := three_issues |}).
  - reflexivity.
  - reflexivity.
  - discriminate.
  - lia.
Defined.
